(** * limiter: an identity-keyed rate-limiting registry

    A shallow embedding of [common.go] and [limiter.go] of the Go package
    [limiter], and the properties of its registry, sweep, options,
    allow-list and middlewares.

    Conventions of the embedding:
    - a Go [int], [time.Duration] (nanoseconds) and [time.Time] (nanoseconds
      on the monotonic clock) are [Z]; the code only compares, subtracts and
      assigns them, far from the 64-bit bounds;
    - a Go pointer is [option nat]: [None] is [nil], [Some a] is the address
      [a] of an object in a heap that is a list grown by allocation;
    - [map[string]*record] is a [gmap string (option nat)];
    - a panic is the [Panic] outcome of [result];
    - [time.Now()] is an argument of the operation that reads the clock. *)

From Stdlib Require Import ZArith QArith Qminmax String Ascii Lia.
From stdpp Require Import base option list gmap strings.

#[local] Set Warnings "-clear-no-such-hyp".

Local Open Scope Z_scope.

(** ** Outcomes *)

Inductive result (A : Type) : Type :=
  | Ok (a : A)
  | Panic.
Arguments Ok {A} a.
Arguments Panic {A}.

(** ** Durations ([time] package constants, in nanoseconds) *)

Module time.
Definition Nanosecond : Z := 1.
Definition Second : Z := 1000000000 * Nanosecond.
Definition Minute : Z := 60 * Second.

(** [time.Since(t)] with the clock reading [now]. *)
Definition Since (now t : Z) : Z := now - t.
End time.

(** ** The token bucket the registry stores ([golang.org/x/time/rate]) *)

Module rate.

(** [rate.Limit] is a [float64]: a finite rate, an infinity, or the [NaN]
    that [0.0 / 0.0] gives.  A finite rate is kept as the exact rational
    the float is the rounding of: its sign and whether it is zero are those
    of the float, its digits need not be. *)
Inductive Limit : Type :=
  | Finite (r : Q)
  | Inf
  | NegInf
  | NaN.

Record Limiter : Type := mkLimiter {
  limit : Limit;   (* refillRate, tokens per second *)
  burst : Z;       (* capacity *)
  tokens : Q;      (* current tokens *)
  last : Z         (* lastRefillTime *)
}.

(** Modelled from the spec: the package [golang.org/x/time/rate] is a
    dependency of this repository and not part of its sources.  A bucket
    is "created with tokens = capacity (full burst available
    immediately)". *)
Definition NewLimiter (r : Limit) (b : Z) : Limiter :=
  {| limit := r; burst := b; tokens := inject_Z b; last := 0 |}.

(** Seconds elapsed since the last recomputation, clamped at zero. *)
Definition elapsed (now : Z) (l : Limiter) : Q :=
  inject_Z (Z.max 0 (now - last l)) / inject_Z time.Second.

(** [min(capacity, tokens + elapsed * refillRate)]. *)
Definition refill (r : Q) (now : Z) (l : Limiter) : Q :=
  Qmin (inject_Z (burst l)) (tokens l + elapsed now l * r).

(** Modelled from the spec: [tryAdmit], the [Allow] method.  "On each
    call, first recompute tokens = min(capacity, tokens +
    elapsed * refillRate), then set lastRefillTime = now.  If tokens >= 1,
    decrement tokens by 1 and return admit; else return reject, leaving
    tokens unchanged."  An infinite rate is the unlimited mode.  With a
    rate that is [NaN] or minus infinity the recomputed count is no number
    that is at least 1: the call rejects, and the bucket is left as it is.
    No property below relies on these two cases. *)
Definition Allow (now : Z) (l : Limiter) : bool * Limiter :=
  match limit l with
  | Inf => (true, l)
  | NegInf | NaN => (false, l)
  | Finite r =>
      let t := refill r now l in
      if Qle_bool 1 t
      then (true, {| limit := limit l; burst := burst l; tokens := t - 1; last := now |})
      else (false, {| limit := limit l; burst := burst l; tokens := t; last := now |})
  end.

End rate.

(** ** common.go: constants and types *)

Definition defaultRps : Z := 10.
Definition defaultBurst : Z := 20.
Definition defaultTTL : Z := time.Minute * 5.
Definition defaultCleanupFrequency : Z := time.Minute * 5.
Definition defaultPeriod : Z := time.Second.

Definition XFF : string := "x-forwarded-for".
Definition XOFF : string := "x-original-forwarded-for".
Definition tooManyReqMsg : string := "Too many requests".
Definition StatusTooManyRequests : Z := 429.

(** [record]: both fields as the struct has them; [rlimiter] is the
    [limiter *rate.Limiter] field. *)
Record record : Type := mkRecord {
  lastSeen : Z;
  rlimiter : option nat
}.

(** [limiterOptions].  [allowedIPs] is used as a slice of strings by every
    function of limiter.go ([[]string{}], [append], [slices.Contains]). *)
Record limiterOptions : Type := mkOptions {
  ttl : Z;
  customPeriod : bool;
  period : Z;
  burst : Z;
  requests : Z;
  cleanupFreq : Z;
  o_ipHeader : string;
  allowedPrefix : list string;
  allowedIPs : list string
}.

(** The [option] type, a function on a pointer to [limiterOptions]: an
    update of the options. *)
Definition option_ : Type := limiterOptions → limiterOptions.

(** A [chan struct{}] that is only ever closed. *)
Inductive chan : Type :=
  | Open
  | Closed.

(** [limiter]: the struct's fields (the embedded [sync.RWMutex] delimits the
    critical sections, which are the atomic steps of [Module Race]). *)
Record limiter : Type := mkLimiterStruct {
  storage : gmap string (option nat);
  opts : limiterOptions;
  stop : chan;
  limit : rate.Limit
}.

(** The limiter together with the objects its pointers refer to. *)
Record world : Type := mkWorld {
  self : limiter;
  recs : list record;          (* the [record]s allocated so far *)
  lims : list rate.Limiter     (* the [rate.Limiter]s allocated so far *)
}.

(** Reading through an address that was never allocated gives the zero
    value of the type (the default of [!!!]); no world the program reaches
    holds such an address (see [wf]). *)
#[global] Instance record_inhabited : Inhabited record :=
  populate {| lastSeen := 0; rlimiter := None |}.

#[global] Instance Limiter_inhabited : Inhabited rate.Limiter :=
  populate (rate.mkLimiter (rate.Finite 0) 0 0 0).

(** ** limiter.go: options and construction *)

Definition defautlOptions : limiterOptions :=
  {| ttl := defaultTTL;
     customPeriod := false;
     requests := defaultRps;
     burst := defaultBurst;
     period := defaultPeriod;
     cleanupFreq := defaultCleanupFrequency;
     o_ipHeader := XOFF;
     allowedPrefix := [];
     allowedIPs := [] |}.

Definition set_requests (v : Z) (o : limiterOptions) : limiterOptions :=
  mkOptions (ttl o) (customPeriod o) (period o) (burst o) v (cleanupFreq o)
            (o_ipHeader o) (allowedPrefix o) (allowedIPs o).
Definition set_burst (v : Z) (o : limiterOptions) : limiterOptions :=
  mkOptions (ttl o) (customPeriod o) (period o) v (requests o) (cleanupFreq o)
            (o_ipHeader o) (allowedPrefix o) (allowedIPs o).
Definition set_period (v : Z) (o : limiterOptions) : limiterOptions :=
  mkOptions (ttl o) (customPeriod o) v (burst o) (requests o) (cleanupFreq o)
            (o_ipHeader o) (allowedPrefix o) (allowedIPs o).
Definition set_customPeriod (v : bool) (o : limiterOptions) : limiterOptions :=
  mkOptions (ttl o) v (period o) (burst o) (requests o) (cleanupFreq o)
            (o_ipHeader o) (allowedPrefix o) (allowedIPs o).
Definition set_cleanupFreq (v : Z) (o : limiterOptions) : limiterOptions :=
  mkOptions (ttl o) (customPeriod o) (period o) (burst o) (requests o) v
            (o_ipHeader o) (allowedPrefix o) (allowedIPs o).
Definition set_ttl (v : Z) (o : limiterOptions) : limiterOptions :=
  mkOptions v (customPeriod o) (period o) (burst o) (requests o) (cleanupFreq o)
            (o_ipHeader o) (allowedPrefix o) (allowedIPs o).
Definition set_ipHeader (v : string) (o : limiterOptions) : limiterOptions :=
  mkOptions (ttl o) (customPeriod o) (period o) (burst o) (requests o) (cleanupFreq o)
            v (allowedPrefix o) (allowedIPs o).
Definition set_allowedPrefix (v : list string) (o : limiterOptions) : limiterOptions :=
  mkOptions (ttl o) (customPeriod o) (period o) (burst o) (requests o) (cleanupFreq o)
            (o_ipHeader o) v (allowedIPs o).
Definition set_allowedIPs (v : list string) (o : limiterOptions) : limiterOptions :=
  mkOptions (ttl o) (customPeriod o) (period o) (burst o) (requests o) (cleanupFreq o)
            (o_ipHeader o) (allowedPrefix o) v.

Definition RpsWithBurst (rps burst : Z) : option_ :=
  let rps := if rps <? 0 then defaultRps else rps in
  let burst := if burst <? 0 then defaultRps else burst in
  fun opts => set_burst burst (set_requests rps opts).

Definition Rps (rps : Z) : option_ :=
  let rps := if rps <? 0 then defaultRps else rps in
  fun opts => set_burst rps (set_requests rps opts).

Definition Burst (burst : Z) : option_ :=
  let burst := if burst <? 0 then defaultBurst else burst in
  fun opts => set_burst burst opts.

Definition Period (requests period : Z) : option_ :=
  let period := if period <? 0 then defaultPeriod else period in
  let requests := if requests <? 0 then 0 else requests in
  fun opts => set_requests requests (set_customPeriod true (set_period period opts)).

Definition CleanupFrequency (cf : Z) : option_ :=
  let cf := if cf <=? 0 then defaultCleanupFrequency else cf in
  fun opts => set_cleanupFreq cf opts.

Definition RecordTTL (ttl : Z) : option_ :=
  let ttl := if ttl <? 0 then defaultTTL else ttl in
  fun opts => set_ttl ttl opts.

Definition AllowedIPs (ip : list string) : option_ :=
  fun opts => set_allowedIPs (allowedIPs opts ++ ip) opts.

Definition AllowedPrefixes (prefix : list string) : option_ :=
  fun opts => set_allowedPrefix (allowedPrefix opts ++ prefix) opts.

Definition IPHeader (h : string) : option_ :=
  fun opts => set_ipHeader h opts.

(** [rate.Limit(float64(o.requests) / o.period.Seconds())]: the quotient of
    two floats, with the IEEE results of a division by zero.  A finite
    quotient is the exact one, which the code rounds: the properties below
    use its sign and whether it is zero, which rounding keeps. *)
Definition limit_of (requests period : Z) : rate.Limit :=
  if period =? 0 then
    if requests =? 0 then rate.NaN
    else if 0 <? requests then rate.Inf else rate.NegInf
  else rate.Finite (inject_Z requests / (inject_Z period / inject_Z time.Second)).

(** [New]: the options applied in order to the defaults, an empty storage,
    an open stop channel.  The sweep it starts in the background is
    [cleanup] run by the environment (see [reachable]). *)
Definition New (os : list option_) : world :=
  let o := foldl (fun o opt => opt o) defautlOptions os in
  {| self := {| storage := ∅;
                opts := o;
                stop := Open;
                limit := limit_of (requests o) (period o) |};
     recs := [];
     lims := [] |}.

Definition set_storage (m : gmap string (option nat)) (l : limiter) : limiter :=
  {| storage := m; opts := opts l; stop := stop l; limit := limit l |}.

Definition set_stop (c : chan) (l : limiter) : limiter :=
  {| storage := storage l; opts := opts l; stop := c; limit := limit l |}.

(** ** limiter.go: the allow-list *)

(** [strings.HasPrefix]:
    [len(s) >= len(prefix) && s[:len(prefix)] == prefix]. *)
Definition HasPrefix (s prefix : string) : bool :=
  (String.length prefix <=? String.length s)%nat
  && String.eqb (substring 0 (String.length prefix) s) prefix.

(** [slices.Contains]: the first index holding the value, if any. *)
Fixpoint Contains (s : list string) (v : string) : bool :=
  match s with
  | [] => false
  | x :: s' => if String.eqb v x then true else Contains s' v
  end.

(** The loop of [hasWhitelistedPrefix] over [lim.opts.allowedPrefix]. *)
Fixpoint hasPrefixIn (prefixes : list string) (ip : string) : bool :=
  match prefixes with
  | [] => false
  | v :: rest => if HasPrefix ip v then true else hasPrefixIn rest ip
  end.

Definition hasWhitelistedPrefix (lim : limiter) (ip : string) : bool :=
  hasPrefixIn (allowedPrefix (opts lim)) ip.

Definition whiteListed (lim : limiter) (ip : string) : bool :=
  Contains (allowedIPs (opts lim)) ip || hasWhitelistedPrefix lim ip.

Definition ipHeader (lim : limiter) : string := o_ipHeader (opts lim).

(** ** limiter.go: the registry *)

(** The critical sections of [visitor], each one atomic under the lock it
    takes, then [visitor] itself: their composition without interleaving. *)

(** [v, e := lim.storage[ip]] under the read lock: [None] when [e] is false,
    [Some v] when the entry exists ([v] may be [nil]). *)
Definition visitor_find (ip : string) (w : world) : option (option nat) :=
  storage (self w) !! ip.

(** [l := rate.NewLimiter(lim.limit, lim.opts.burst)]. *)
Definition visitor_new (w : world) : nat * world :=
  (length (lims w),
   {| self := self w;
      recs := recs w;
      lims := lims w ++ [rate.NewLimiter (limit (self w)) (burst (opts (self w)))] |}).

(** [lim.storage[ip] = &record{lastSeen: time.Now(), limiter: l}] under the
    write lock. *)
Definition visitor_store (ip : string) (now : Z) (l : option nat) (w : world) : world :=
  {| self := set_storage (<[ip := Some (length (recs w))]> (storage (self w))) (self w);
     recs := recs w ++ [ {| lastSeen := now; rlimiter := l |} ];
     lims := lims w |}.

(** [if v != nil { v.lastSeen = time.Now() }] under the write lock. *)
Definition visitor_touch (v : option nat) (now : Z) (w : world) : world :=
  match v with
  | Some a =>
      {| self := self w;
         recs := alter (fun r => {| lastSeen := now; rlimiter := rlimiter r |}) a (recs w);
         lims := lims w |}
  | None => w
  end.

(** [return v.limiter]: a [nil] record pointer panics. *)
Definition visitor_ret (v : option nat) (w : world) : result (option nat) :=
  match v with
  | Some a => Ok (rlimiter (recs w !!! a))
  | None => Panic
  end.

Definition visitor (ip : string) (now : Z) (w : world) : result (option nat) * world :=
  match visitor_find ip w with
  | None =>
      let '(l, w1) := visitor_new w in
      (Ok (Some l), visitor_store ip now (Some l) w1)
  | Some v =>
      let w1 := visitor_touch v now w in
      (visitor_ret v w1, w1)
  end.

(** [Allow] on the bucket a pointer refers to; a [nil] receiver panics. *)
Definition Allow (l : option nat) (now : Z) (w : world) : result bool * world :=
  match l with
  | None => (Panic, w)
  | Some a =>
      let '(ok, b) := rate.Allow now (lims w !!! a) in
      (Ok ok, {| self := self w; recs := recs w; lims := <[a := b]> (lims w) |})
  end.

(** What one iteration of the sweep's loop appends to [exp] for the entry
    [(k, v)]; [now] is the clock read by [time.Since] in that iteration. *)
Definition cleanup_visit (now : Z) (w : world) (k : string) (v : option nat) : list string :=
  (match v with None => [k] | Some _ => [] end)
  ++ (if match v with
         | None => true
         | Some a => ttl (opts (self w)) <=? time.Since now (lastSeen (recs w !!! a))
         end
      then [k] else []).

(** [exp := make([]string, len(lim.storage)>>1)]: a slice of that many
    empty strings, to which the loop appends. *)
Definition cleanup_make (w : world) : list string :=
  replicate (Z.to_nat (Z.shiftr (Z.of_nat (size (storage (self w)))) 1)) ""%string.

(** The loop over [lim.storage] under the read lock.  An entry is visited
    once, so the clock the loop reads is a function of the key. *)
Definition cleanup_scan (exp : list string) (now : string → Z) (w : world) : list string :=
  foldl (fun exp kv => exp ++ cleanup_visit (now kv.1) w kv.1 kv.2)
        exp (map_to_list (storage (self w))).

(** [for _, k := range exp { delete(lim.storage, k) }] under the write lock. *)
Definition cleanup_delete (exp : list string) (w : world) : world :=
  {| self := set_storage (foldl (fun m k => delete k m) (storage (self w)) exp) (self w);
     recs := recs w;
     lims := lims w |}.

Definition cleanup (now : string → Z) (w : world) : world :=
  cleanup_delete (cleanup_scan (cleanup_make w) now w) w.

(** [Stop]: [close(lim.stop)]; closing a closed channel panics. *)
Definition Stop (w : world) : result unit * world :=
  match stop (self w) with
  | Open => (Ok tt, {| self := set_stop Closed (self w); recs := recs w; lims := lims w |})
  | Closed => (Panic, w)
  end.

(** [l.visitor(ip).Allow()], the expression both middlewares decide on;
    [now_v] and [now_a] are the clock readings of [visitor] and of [Allow]. *)
Definition visitorAllow (ip : string) (now_v now_a : Z) (w : world) : result bool * world :=
  match visitor ip now_v w with
  | (Panic, w1) => (Panic, w1)
  | (Ok l, w1) => Allow l now_a w1
  end.

(** ** limiter.go: the middlewares *)

(** A response is the sequence of the (status, body) pairs written to it. *)
Definition ResponseWriter : Type := list (Z * string).

(** [strings.Split(ip, ",")[0]]: the text before the first comma. *)
Fixpoint firstField (s : string) : string :=
  match s with
  | EmptyString => EmptyString
  | String c s' => if Ascii.eqb c "," then EmptyString else String c (firstField s')
  end.

Definition is_empty (s : string) : bool := String.eqb s "".

Section Middleware.

(** Library functions the middlewares call on the request. *)
Variable TrimSpace : string → string.                         (* strings.TrimSpace *)
Variable SplitHostPort : string → option (string * string).   (* net.SplitHostPort, [None] on error *)

(** [ip := Header.Get(l.ipHeader()); if ip != "" { first field, trimmed }],
    the opening lines of both middlewares. *)
Definition headerIP (header : string → string) (l : limiter) : string :=
  let ip := header (ipHeader l) in
  if negb (is_empty ip) then TrimSpace (firstField ip) else ip.

(** *** net/http *)

Record Request : Type := mkRequest {
  Header : string → string;    (* r.Header.Get *)
  RemoteAddr : string
}.

(** The identity [Limit] settles on: the header's, else the host of
    [r.RemoteAddr], else [r.RemoteAddr] itself. *)
Definition LimitIP (r : Request) (l : limiter) : string :=
  let ip := headerIP (Header r) l in
  if is_empty ip then
    match SplitHostPort (RemoteAddr r) with
    | Some (host, _) => host
    | None => RemoteAddr r
    end
  else ip.

(** The line feed that [fmt.Fprintln] ends a line with. *)
Definition newline : string := String "010" EmptyString.

(** [http.Error(w, msg, code)]: the status, then [fmt.Fprintln(w, msg)],
    the message followed by a line feed. *)
Definition Error (msg : string) (code : Z) (rw : ResponseWriter) : ResponseWriter :=
  rw ++ [(code, msg +:+ newline)].

(** The handler [Limit(l)(next)] serving [r] into [rw]. *)
Definition Limit (next : ResponseWriter → ResponseWriter) (r : Request)
    (now_v now_a : Z) (w : world) (rw : ResponseWriter) : result ResponseWriter * world :=
  let ip := LimitIP r (self w) in
  if whiteListed (self w) ip then (Ok (next rw), w)
  else
    match visitorAllow ip now_v now_a w with
    | (Panic, w1) => (Panic, w1)
    | (Ok false, w1) => (Ok (Error tooManyReqMsg StatusTooManyRequests rw), w1)
    | (Ok true, w1) => (Ok (next rw), w1)
    end.

(** *** gin *)

(** A [gin.Context]: the response and the index of the running handler in
    the chain.  The chain has [nhandlers] handlers; [downstream] is what
    those after the running one write when they run. *)
Record Context : Type := mkContext {
  GetHeader : string → string;
  ClientIP : string;
  Writer : ResponseWriter;
  index : Z
}.

Variable nhandlers : Z.
Variable downstream : ResponseWriter → ResponseWriter.

Definition abortIndex : Z := 63.

Definition set_ctx (rw : ResponseWriter) (i : Z) (c : Context) : Context :=
  {| GetHeader := GetHeader c; ClientIP := ClientIP c; Writer := rw; index := i |}.

(** [c.Next()]: [c.index++], then the handlers from there to the end of
    the chain run. *)
Definition Next (c : Context) : Context :=
  let i := index c + 1 in
  if i <? nhandlers then set_ctx (downstream (Writer c)) nhandlers c
  else set_ctx (Writer c) i c.

(** [c.Abort()]. *)
Definition Abort (c : Context) : Context := set_ctx (Writer c) abortIndex c.

(** [c.String(code, msg)]. *)
Definition String_ (code : Z) (msg : string) (c : Context) : Context :=
  set_ctx (Writer c ++ [(code, msg)]) (index c) c.

(** The identity [GinLimit] settles on: the header's, else [c.ClientIP()]. *)
Definition GinLimitIP (c : Context) (l : limiter) : string :=
  let ip := headerIP (GetHeader c) l in
  if is_empty ip then ClientIP c else ip.

Definition GinLimit (now_v now_a : Z) (w : world) (c : Context) : result Context * world :=
  let ip := GinLimitIP c (self w) in
  let c := if whiteListed (self w) ip then Next c else c in
  match visitorAllow ip now_v now_a w with
  | (Panic, w1) => (Panic, w1)
  | (Ok false, w1) => (Ok (Abort (String_ StatusTooManyRequests tooManyReqMsg c)), w1)
  | (Ok true, w1) => (Ok (Next c), w1)
  end.

End Middleware.

(** ** The worlds a program reaches *)

(** Any sequence of calls on a limiter made by [New]; the sweep that
    [scheduleCleanup] runs on every tick is one of them. *)
Inductive reachable : world → Prop :=
  | reach_New os : reachable (New os)
  | reach_visitor ip now w : reachable w → reachable (visitor ip now w).2
  | reach_Allow l now w : reachable w → reachable (Allow l now w).2
  | reach_cleanup now w : reachable w → reachable (cleanup now w)
  | reach_Stop w : reachable w → reachable (Stop w).2.

(** Every pointer of the registry refers to an allocated object. *)
Record wf (w : world) : Prop := mkWf {
  wf_storage : ∀ k v, storage (self w) !! k = Some v →
                 ∃ a, v = Some a ∧ (a < length (recs w))%nat;
  wf_recs : ∀ a r, recs w !! a = Some r →
              ∃ l, rlimiter r = Some l ∧ (l < length (lims w))%nat
}.

(** The identity [ip] is bound to the bucket [l]: its entry points to an
    allocated record whose [limiter] field is [l]. *)
Definition bound (w : world) (ip : string) (l : nat) : Prop :=
  ∃ a, storage (self w) !! ip = Some (Some a)
       ∧ (a < length (recs w))%nat
       ∧ rlimiter (recs w !!! a) = Some l.

(** The identity [ip] is bound to an allocated bucket of rate [r] and
    capacity [c] that holds [k] tokens. *)
Definition stocked (w : world) (ip : string) (r : Q) (c k : Z) : Prop :=
  ∃ l, bound w ip l
       ∧ (l < length (lims w))%nat
       ∧ rate.limit (lims w !!! l) = rate.Finite r
       ∧ rate.burst (lims w !!! l) = c
       ∧ (rate.tokens (lims w !!! l) == inject_Z k)%Q.

(** The entry of [k] is idle: its [lastSeen] age, at the clock reading the
    sweep takes for it, is at least the TTL. *)
Definition idle (now : string → Z) (w : world) (k : string) : Prop :=
  ∃ a, storage (self w) !! k = Some (Some a)
       ∧ ttl (opts (self w)) ≤ time.Since (now k) (lastSeen (recs w !!! a)).

(** No two identities share a record, and no two records share a bucket. *)
Record separate (w : world) : Prop := mkSeparate {
  sep_storage : ∀ k1 k2 a,
    storage (self w) !! k1 = Some (Some a) → storage (self w) !! k2 = Some (Some a) →
    k1 = k2;
  sep_recs : ∀ a1 a2 r1 r2 l,
    recs w !! a1 = Some r1 → recs w !! a2 = Some r2 →
    rlimiter r1 = Some l → rlimiter r2 = Some l →
    a1 = a2
}.

(** The options the package exports: the only way a caller has to change
    the defaults ([IPHeader] is a method of the unexported [limiter]). *)
Inductive exported : option_ → Prop :=
  | exported_RpsWithBurst rps burst : exported (RpsWithBurst rps burst)
  | exported_Rps rps : exported (Rps rps)
  | exported_Burst burst : exported (Burst burst)
  | exported_Period requests period : exported (Period requests period)
  | exported_CleanupFrequency cf : exported (CleanupFrequency cf)
  | exported_RecordTTL ttl : exported (RecordTTL ttl)
  | exported_AllowedIPs ip : exported (AllowedIPs ip)
  | exported_AllowedPrefixes prefix : exported (AllowedPrefixes prefix)
  | exported_IPHeader h : exported (IPHeader h).

(** No negative rate, burst, TTL or period, and a positive sweep interval
    (what [time.NewTicker] in [scheduleCleanup] needs). *)
Definition valid_options (o : limiterOptions) : Prop :=
  0 ≤ requests o ∧ 0 ≤ burst o ∧ 0 ≤ ttl o ∧ 0 ≤ period o ∧ 0 < cleanupFreq o.

(** [n] calls of [l.visitor(ip).Allow()] one after the other, with the
    clock readings of each. *)
Fixpoint admits (ip : string) (clock : list (Z * Z)) (w : world) : list (result bool) * world :=
  match clock with
  | [] => ([], w)
  | (now_v, now_a) :: rest =>
      let '(r, w1) := visitorAllow ip now_v now_a w in
      let '(rs, w2) := admits ip rest w1 in
      (r :: rs, w2)
  end.

(** ** Goroutines racing on one limiter *)

Module Race.

(** Where a goroutine stands: between two critical sections of [visitor]
    or of [cleanup]. *)
Inductive goroutine : Type :=
  | Enter (ip : string)                 (* visitor: before the read-locked lookup *)
  | Missed (ip : string)                (* not found: before rate.NewLimiter *)
  | Created (ip : string) (l : nat)     (* before the write-locked store *)
  | Found (v : option nat)              (* found: before the write-locked touch *)
  | Touched (v : option nat)            (* before return v.limiter *)
  | Returned (r : result (option nat))  (* visitor returned or panicked *)
  | Sweep                               (* cleanup: before make *)
  | Scanning (exp : list string)        (* before the read-locked loop *)
  | Deleting (exp : list string)        (* before the write-locked deletes *)
  | Swept.

(** One critical section of a goroutine, run at the instant [now]. *)
Definition step (now : Z) (g : goroutine) (w : world) : goroutine * world :=
  match g with
  | Enter ip =>
      match visitor_find ip w with
      | None => (Missed ip, w)
      | Some v => (Found v, w)
      end
  | Missed ip => let '(l, w1) := visitor_new w in (Created ip l, w1)
  | Created ip l => (Returned (Ok (Some l)), visitor_store ip now (Some l) w)
  | Found v => (Touched v, visitor_touch v now w)
  | Touched v => (Returned (visitor_ret v w), w)
  | Returned r => (Returned r, w)
  | Sweep => (Scanning (cleanup_make w), w)
  | Scanning exp => (Deleting (cleanup_scan exp (fun _ => now) w), w)
  | Deleting exp => (Swept, cleanup_delete exp w)
  | Swept => (Swept, w)
  end.

(** The goroutines and the world they share. *)
Definition system : Type := list goroutine * world.

(** The scheduler lets goroutine [i] run its next critical section. *)
Definition sched (s : system) (pick : nat * Z) : system :=
  match s.1 !! pick.1 with
  | None => s
  | Some g => let '(g', w') := step pick.2 g s.2 in (<[pick.1 := g']> s.1, w')
  end.

Definition run (schedule : list (nat * Z)) (s : system) : system :=
  foldl sched s schedule.

(** What a goroutine holds refers to allocated objects. *)
Definition gwf (w : world) (g : goroutine) : Prop :=
  match g with
  | Created _ l => (l < length (lims w))%nat
  | Found v | Touched v => ∃ a, v = Some a ∧ (a < length (recs w))%nat
  | Returned r => ∃ l, r = Ok (Some l) ∧ (l < length (lims w))%nat
  | _ => True
  end.

(** A goroutine at the start of a call. *)
Definition fresh (g : goroutine) : Prop :=
  match g with
  | Enter _ | Sweep => True
  | _ => False
  end.

(** The shared world is well formed, and so is what each goroutine holds. *)
Definition safe (s : system) : Prop := wf s.2 ∧ Forall (gwf s.2) s.1.

End Race.

(** Where a goroutine that looks up [ip] can stand when the registry holds
    [ip] at the record [a] with the bucket [l]. *)
Definition looking_up (ip : string) (a l : nat) (g : Race.goroutine) : Prop :=
  g = Race.Enter ip ∨ g = Race.Found (Some a) ∨ g = Race.Touched (Some a)
  ∨ g = Race.Returned (Ok (Some l)).

(** * Properties *)

(** ** The allow-list *)

Section AllowList.

Local Open Scope string_scope.

Lemma substring_0_cons (n : nat) (c : ascii) (s : string) :
  substring 0 (S n) (String c s) = String c (substring 0 n s).
Proof. reflexivity. Qed.

(** [strings.HasPrefix] holds exactly when the string starts with the
    prefix. *)
Lemma HasPrefix_spec (s p : string) :
  HasPrefix s p = true ↔ ∃ rest, s = p +:+ rest.
Proof.
  unfold HasPrefix. revert s.
  induction p as [|c p IH]; intros s.
  - split; [intros _; by exists s|intros _].
    simpl. by destruct s.
  - destruct s as [|d s].
    + split; [done|]. by intros [rest ?].
    + cbn [String.length]. rewrite substring_0_cons.
      change (S (String.length p) <=? S (String.length s))%nat
        with (String.length p <=? String.length s)%nat.
      specialize (IH s).
      rewrite andb_true_iff in IH |- *.
      rewrite String.eqb_eq in IH |- *.
      split.
      * intros [Hlen Heq]. injection Heq as -> Heq.
        destruct (proj1 IH (conj Hlen Heq)) as [rest ->].
        by exists rest.
      * intros [rest Heq]. simpl in Heq. injection Heq as -> ->.
        destruct (proj2 IH (ex_intro _ rest eq_refl)) as [Hlen Hp].
        split; [done|]. by rewrite Hp.
Qed.

Lemma Contains_spec (l : list string) (v : string) :
  Contains l v = true ↔ v ∈ l.
Proof.
  induction l as [|x l IH]; simpl.
  - split; [done|]. by intros ?%elem_of_nil.
  - rewrite elem_of_cons. destruct (String.eqb_spec v x) as [->|Hne].
    + split; auto.
    + rewrite IH. split; [auto|]. by intros [?|?].
Qed.

Lemma hasPrefixIn_spec (ps : list string) (ip : string) :
  hasPrefixIn ps ip = true ↔ ∃ p, p ∈ ps ∧ ∃ rest, ip = p +:+ rest.
Proof.
  induction ps as [|p ps IH]; simpl.
  - split; [done|]. by intros (? & ?%elem_of_nil & _).
  - destruct (HasPrefix ip p) eqn:Hp.
    + split; [intros _|done]. exists p. split; [left|]. by apply HasPrefix_spec.
    + rewrite IH. split.
      * intros (q & Hq & Hr). exists q. split; [by right|done].
      * intros (q & Hq & Hr). apply elem_of_cons in Hq as [->|Hq].
        -- apply HasPrefix_spec in Hr. congruence.
        -- by exists q.
Qed.

(** C10: [whiteListed] answers true exactly for an identity of the exact
    allow-list or one that starts with a prefix of the prefix list; the
    prefix "10." matches "10.0.0.2" and does not match "110.0.0.2". *)
Theorem whiteListed_iff :
  (∀ (lim : limiter) (ip : string),
     whiteListed lim ip = true ↔
     ip ∈ allowedIPs (opts lim)
     ∨ ∃ p, p ∈ allowedPrefix (opts lim) ∧ ∃ rest, ip = p +:+ rest)
  ∧ whiteListed (self (New [AllowedPrefixes ["10."]])) "10.0.0.2" = true
  ∧ whiteListed (self (New [AllowedPrefixes ["10."]])) "110.0.0.2" = false.
Proof.
  split; [|split; reflexivity].
  intros lim ip. unfold whiteListed, hasWhitelistedPrefix.
  by rewrite orb_true_iff, Contains_spec, hasPrefixIn_spec.
Qed.

End AllowList.

(** ** Options and construction *)

Lemma New_snoc (os : list option_) (opt : option_) :
  opts (self (New (os ++ [opt]))) = opt (opts (self (New os))).
Proof. unfold New. simpl. by rewrite foldl_snoc. Qed.

Lemma defaults_documented :
  defaultRps = 10 ∧ defaultBurst = 20
  ∧ defaultTTL = 5 * 60 * 1000000000
  ∧ defaultCleanupFrequency = 5 * 60 * 1000000000
  ∧ defaultPeriod = 1000000000.
Proof. by vm_compute. Qed.

(** C5, as stated, fails: a negative burst given to [RpsWithBurst] becomes
    10 and not the default burst, and a negative number of requests given to
    [Period] becomes 0 and not the default rate. *)
Lemma negative_input_not_default :
  burst (opts (self (New [RpsWithBurst 5 (-1)]))) = 10
  ∧ burst (opts (self (New [RpsWithBurst 5 (-1)]))) ≠ defaultBurst
  ∧ requests (opts (self (New [Period (-1) time.Second]))) = 0
  ∧ requests (opts (self (New [Period (-1) time.Second]))) ≠ defaultRps.
Proof. by vm_compute. Qed.

(** C5, amended: a negative rate given to [Rps] or [RpsWithBurst] becomes
    10 (and [Rps] sets the burst to that rate), a negative burst given to
    [Burst] becomes 20, a negative TTL becomes 5 minutes, a negative period
    becomes 1 second, a negative number of requests given to [Period]
    becomes 0; whatever the options, [New] returns a limiter with an empty
    registry and an open stop channel. *)
Theorem negative_options_replaced (o : limiterOptions) (x y : Z) (os : list option_) :
  x < 0 →
  requests (RpsWithBurst x y o) = 10
  ∧ requests (Rps x o) = 10 ∧ burst (Rps x o) = 10
  ∧ burst (Burst x o) = 20
  ∧ ttl (RecordTTL x o) = 5 * 60 * 1000000000
  ∧ period (Period y x o) = 1000000000
  ∧ requests (Period x y o) = 0
  ∧ storage (self (New os)) = ∅ ∧ stop (self (New os)) = Open.
Proof.
  intros Hx. apply Z.ltb_lt in Hx.
  unfold RpsWithBurst, Rps, Burst, RecordTTL, Period. rewrite Hx.
  repeat split; reflexivity.
Qed.

Lemma negative_options_replaced_witness :
  -1 < 0
  ∧ requests (RpsWithBurst (-1) 7 defautlOptions) = 10
  ∧ burst (Burst (-1) defautlOptions) = 20
  ∧ ttl (RecordTTL (-1) defautlOptions) = 5 * 60 * 1000000000
  ∧ period (Period 7 (-1) defautlOptions) = 1000000000.
Proof.
  split; [lia|].
  destruct (negative_options_replaced defautlOptions (-1) 7 [])
    as (H1 & _ & _ & H4 & H5 & H6 & _); [lia|].
  repeat split; assumption.
Defined.

(** ** The stop channel *)

(** C4, as stated, fails: the second [Stop] panics. *)
Lemma double_Stop_panics : (Stop (Stop (New [])).2).1 = Panic.
Proof. reflexivity. Qed.

(** C4, amended: on a limiter made by [New] the first [Stop] returns and
    leaves the stop channel closed; a [Stop] that follows another [Stop]
    panics (closing a closed channel), on any limiter: the code has no
    guard against a second call. *)
Theorem Stop_once (os : list option_) :
  (Stop (New os)).1 = Ok tt
  ∧ stop (self (Stop (New os)).2) = Closed
  ∧ ∀ w : world, (Stop (Stop w).2).1 = Panic.
Proof.
  split; [reflexivity|]. split; [reflexivity|].
  intros w. unfold Stop at 2. destruct (stop (self w)) eqn:Hs.
  - reflexivity.
  - simpl. unfold Stop. by rewrite Hs.
Qed.

(** ** The registry: lookups *)

Lemma visitor_miss (ip : string) (now : Z) (w : world) :
  storage (self w) !! ip = None →
  visitor ip now w =
    (Ok (Some (length (lims w))),
     visitor_store ip now (Some (length (lims w))) (visitor_new w).2).
Proof. intros H. unfold visitor, visitor_find. by rewrite H. Qed.

Lemma visitor_hit (ip : string) (now : Z) (w : world) (v : option nat) :
  storage (self w) !! ip = Some v →
  visitor ip now w = (visitor_ret v (visitor_touch v now w), visitor_touch v now w).
Proof. intros H. unfold visitor, visitor_find. by rewrite H. Qed.

Lemma visitor_touch_self (v : option nat) (now : Z) (w : world) :
  self (visitor_touch v now w) = self w.
Proof. by destruct v. Qed.

Lemma visitor_touch_lims (v : option nat) (now : Z) (w : world) :
  lims (visitor_touch v now w) = lims w.
Proof. by destruct v. Qed.

(** A lookup changes the entry of no other identity. *)
Lemma visitor_other (ip k : string) (now : Z) (w : world) :
  k ≠ ip → storage (self (visitor ip now w).2) !! k = storage (self w) !! k.
Proof.
  intros Hne. destruct (storage (self w) !! ip) as [v|] eqn:Hip.
  - rewrite (visitor_hit _ _ _ _ Hip). simpl. by rewrite visitor_touch_self.
  - rewrite (visitor_miss _ _ _ Hip). simpl. by rewrite lookup_insert_ne.
Qed.

Lemma visitor_dom (ip : string) (now : Z) (w : world) :
  dom (storage (self (visitor ip now w).2)) = dom (storage (self w)) ∪ {[ip]}.
Proof.
  destruct (storage (self w) !! ip) as [v|] eqn:Hip.
  - rewrite (visitor_hit _ _ _ _ Hip). simpl. rewrite visitor_touch_self.
    assert (ip ∈ dom (storage (self w))) by (apply elem_of_dom; eauto).
    set_solver.
  - rewrite (visitor_miss _ _ _ Hip). simpl. rewrite dom_insert_L. set_solver.
Qed.

(** C9: a lookup removes no entry: the identities present after the call
    are those present before it together with the one looked up (so they
    include all of the former and add at most that one), and the entries of
    the other identities are the same. *)
Theorem visitor_keeps_entries (ip : string) (now : Z) (w : world) :
  dom (storage (self w)) ⊆ dom (storage (self (visitor ip now w).2))
  ∧ dom (storage (self (visitor ip now w).2)) ⊆ dom (storage (self w)) ∪ {[ip]}
  ∧ dom (storage (self (visitor ip now w).2)) = dom (storage (self w)) ∪ {[ip]}
  ∧ ∀ k, k ≠ ip → storage (self (visitor ip now w).2) !! k = storage (self w) !! k.
Proof.
  pose proof (visitor_dom ip now w) as Hd.
  split; [|split; [|split]].
  - rewrite Hd. set_solver.
  - rewrite Hd. set_solver.
  - exact Hd.
  - intros k Hk. by apply visitor_other.
Qed.

(** ** The registry: no nil record *)

Lemma wf_New (os : list option_) : wf (New os).
Proof.
  split; simpl.
  - intros k v. by rewrite lookup_empty.
  - intros a r. by rewrite lookup_nil.
Qed.

Lemma wf_visitor_new (w : world) : wf w → wf (visitor_new w).2.
Proof.
  intros [Hs Hr]. split; simpl; [exact Hs|].
  intros a r Ha. destruct (Hr a r Ha) as (l & -> & Hl).
  exists l. split; [done|]. rewrite length_app. lia.
Qed.

Lemma wf_visitor_store (ip : string) (now : Z) (l : nat) (w : world) :
  (l < length (lims w))%nat → wf w → wf (visitor_store ip now (Some l) w).
Proof.
  intros Hl [Hs Hr]. split; simpl.
  - intros k v. rewrite length_app. simpl. destruct (decide (ip = k)) as [->|Hne].
    + rewrite lookup_insert_eq. intros [= <-]. eexists. split; [done|]. lia.
    + rewrite lookup_insert_ne by done. intros Hk.
      destruct (Hs k v Hk) as (a & -> & Ha). exists a. split; [done|]. lia.
  - intros a r. rewrite lookup_snoc_Some. intros [[_ Ha]|[_ <-]].
    + exact (Hr a r Ha).
    + by exists l.
Qed.

Lemma wf_visitor_touch (v : option nat) (now : Z) (w : world) :
  wf w → wf (visitor_touch v now w).
Proof.
  intros [Hs Hr]. destruct v as [a|]; [|done]. split; simpl.
  - intros k v Hk. rewrite length_alter. exact (Hs k v Hk).
  - intros b r. rewrite list_lookup_alter. case_decide as Hab.
    + subst b. destruct (recs w !! a) as [r0|] eqn:Ha; [|done].
      simpl. intros [= <-]. exact (Hr a r0 Ha).
    + apply Hr.
Qed.

Lemma wf_visitor (ip : string) (now : Z) (w : world) : wf w → wf (visitor ip now w).2.
Proof.
  intros Hw. destruct (storage (self w) !! ip) as [v|] eqn:Hip.
  - rewrite (visitor_hit _ _ _ _ Hip). by apply wf_visitor_touch.
  - rewrite (visitor_miss _ _ _ Hip). simpl.
    apply wf_visitor_store; [|by apply wf_visitor_new].
    simpl. rewrite length_app. simpl. lia.
Qed.

Lemma wf_Allow (l : option nat) (now : Z) (w : world) : wf w → wf (Allow l now w).2.
Proof.
  intros [Hs Hr]. destruct l as [a|]; [|done]. unfold Allow.
  destruct (rate.Allow now (lims w !!! a)) as [ok b]. split; simpl; [exact Hs|].
  intros c r Hc. rewrite length_insert. exact (Hr c r Hc).
Qed.

(** Deleting keys only removes entries. *)
Lemma lookup_foldl_delete {V} (exp : list string) (m : gmap string V) (k : string) :
  foldl (fun m k => delete k m) m exp !! k = if decide (k ∈ exp) then None else m !! k.
Proof.
  revert m. induction exp as [|x exp IH]; intros m; cbn [foldl].
  - destruct (decide (k ∈ [])) as [H|_]; [by apply elem_of_nil in H|done].
  - rewrite IH. destruct (decide (k = x)) as [->|Hne].
    + rewrite lookup_delete_eq. rewrite (decide_True (P := x ∈ x :: exp)) by left.
      by destruct (decide (x ∈ exp)).
    + rewrite lookup_delete_ne by done.
      destruct (decide (k ∈ exp)) as [Hin|Hnin].
      * by rewrite decide_True by (by right).
      * rewrite decide_False; [done|]. by intros [?|?]%elem_of_cons.
Qed.

Lemma wf_cleanup_delete (exp : list string) (w : world) : wf w → wf (cleanup_delete exp w).
Proof.
  intros [Hs Hr]. split; simpl; [|exact Hr].
  intros k v. rewrite lookup_foldl_delete.
  destruct (decide (k ∈ exp)); [done|]. apply Hs.
Qed.

Lemma wf_Stop (w : world) : wf w → wf (Stop w).2.
Proof. intros [Hs Hr]. unfold Stop. by destruct (stop (self w)). Qed.

(** Every world a program reaches is well formed. *)
Lemma reachable_wf (w : world) : reachable w → wf w.
Proof.
  induction 1 as [os|ip now w _ IH|l now w _ IH|now w _ IH|w _ IH].
  - apply wf_New.
  - by apply wf_visitor.
  - by apply wf_Allow.
  - by apply wf_cleanup_delete.
  - by apply wf_Stop.
Qed.

(** On a well-formed world a lookup returns an allocated bucket. *)
Lemma wf_visitor_returns (ip : string) (now : Z) (w : world) :
  wf w →
  ∃ l, (visitor ip now w).1 = Ok (Some l) ∧ (l < length (lims (visitor ip now w).2))%nat.
Proof.
  intros Hw. destruct (storage (self w) !! ip) as [v|] eqn:Hip.
  - rewrite (visitor_hit _ _ _ _ Hip). simpl.
    pose proof (wf_visitor_touch v now w Hw) as [_ Hr'].
    destruct (wf_storage _ Hw ip v Hip) as (a & -> & Ha). simpl.
    assert (a < length (recs (visitor_touch (Some a) now w)))%nat as Ha'
      by (simpl; by rewrite length_alter).
    apply list_lookup_lookup_total_lt in Ha'.
    destruct (Hr' _ _ Ha') as (l & Hl & Hlt). exists l. by rewrite <- Hl.
  - rewrite (visitor_miss _ _ _ Hip). simpl. eexists. split; [done|].
    rewrite length_app. simpl. lia.
Qed.

(** C6: in every world a program reaches, every record pointer stored in
    the registry is non-nil and refers to an allocated record, so a lookup
    never finds a nil record (the found-but-nil branch is never taken),
    never panics, and returns an allocated bucket, for every identity. *)
Theorem visitor_never_nil (w : world) (ip : string) (now : Z) :
  reachable w →
  (∀ k v, storage (self w) !! k = Some v → v ≠ None)
  ∧ visitor_find ip w ≠ Some None
  ∧ (visitor ip now w).1 ≠ Panic
  ∧ ∃ l, (visitor ip now w).1 = Ok (Some l) ∧ (l < length (lims (visitor ip now w).2))%nat.
Proof.
  intros Hw%reachable_wf.
  assert (∀ k v, storage (self w) !! k = Some v → v ≠ None) as Hnn.
  { intros k v Hk. by destruct (wf_storage _ Hw k v Hk) as (a & -> & _). }
  destruct (wf_visitor_returns ip now w Hw) as (l & Hl & Hlt).
  split; [exact Hnn|]. split; [|split].
  - unfold visitor_find. intros Hf. by apply (Hnn ip None).
  - by rewrite Hl.
  - by exists l.
Qed.

Lemma visitor_never_nil_witness :
  reachable (visitor "1.1.1.1" 5 (New [])).2
  ∧ (visitor "1.1.1.1" 9 (visitor "1.1.1.1" 5 (New [])).2).1 ≠ Panic.
Proof.
  assert (reachable (visitor "1.1.1.1" 5 (New [])).2) as H
    by (apply reach_visitor, reach_New).
  split; [exact H|].
  exact (proj1 (proj2 (proj2 (visitor_never_nil _ "1.1.1.1" 9 H)))).
Defined.

(** ** The registry: one bucket per identity *)

Lemma visitor_binds (ip : string) (now : Z) (w : world) :
  wf w → ∃ l, (visitor ip now w).1 = Ok (Some l) ∧ bound (visitor ip now w).2 ip l.
Proof.
  intros Hw. destruct (storage (self w) !! ip) as [v|] eqn:Hip.
  - rewrite (visitor_hit _ _ _ _ Hip).
    destruct (wf_storage _ Hw ip v Hip) as (a & -> & Ha).
    destruct (wf_recs _ Hw a _ (list_lookup_lookup_total_lt _ _ Ha)) as (l & Hl & _).
    assert (rlimiter (alter (fun r => mkRecord now (rlimiter r)) a (recs w) !!! a) = Some l)
      as Hl' by (by rewrite list_lookup_total_alter_eq).
    exists l. simpl. split; [by rewrite Hl'|].
    exists a. simpl. by rewrite length_alter.
  - rewrite (visitor_miss _ _ _ Hip). simpl. eexists. split; [done|].
    exists (length (recs w)). simpl. rewrite lookup_insert_eq, length_app. simpl.
    split; [done|]. split; [lia|]. by rewrite list_lookup_total_middle.
Qed.

(** A bound identity is handed its bucket, stays bound to it, and the
    lookup changes no bucket. *)
Lemma bound_visitor (ip : string) (now : Z) (w : world) (l : nat) :
  bound w ip l →
  (visitor ip now w).1 = Ok (Some l)
  ∧ bound (visitor ip now w).2 ip l
  ∧ lims (visitor ip now w).2 = lims w.
Proof.
  intros (a & Hip & Ha & Hl). rewrite (visitor_hit _ _ _ _ Hip). simpl.
  assert (rlimiter (alter (fun r => mkRecord now (rlimiter r)) a (recs w) !!! a) = Some l)
    as Hl' by (by rewrite list_lookup_total_alter_eq).
  split; [by rewrite Hl'|]. split; [|done].
  exists a. simpl. by rewrite length_alter.
Qed.

Lemma bound_Allow (ip : string) (l : nat) (p : option nat) (now : Z) (w : world) :
  bound w ip l → bound (Allow p now w).2 ip l.
Proof.
  intros Hb. destruct p as [a|]; [|done]. unfold Allow.
  by destruct (rate.Allow now (lims w !!! a)).
Qed.

(** Callers one after the other share the bucket: the empty string is keyed
    like any other identity, and in every world a program reaches two
    lookups of "" made in sequence (with no sweep in between, and whether
    or not the first caller spends a token in between) return the same
    bucket, which the second caller finds as the first left it; with room
    for one request, the second caller of "" is rejected.  Callers that
    race on the first lookup are another matter. *)
Theorem empty_identity_one_bucket (w : world) (t1 a1 t2 : Z) :
  reachable w →
  (∃ l, (visitor "" t1 w).1 = Ok (Some l)
        ∧ (visitor "" t2 (visitor "" t1 w).2).1 = Ok (Some l)
        ∧ (visitor "" t2 (Allow (Some l) a1 (visitor "" t1 w).2).2).1 = Ok (Some l)
        ∧ lims (visitor "" t2 (Allow (Some l) a1 (visitor "" t1 w).2).2).2
          = lims (Allow (Some l) a1 (visitor "" t1 w).2).2)
  ∧ (admits "" [(1, 2); (3, 4)] (New [RpsWithBurst 1 1])).1 = [Ok true; Ok false].
Proof.
  intros Hw%reachable_wf. split; [|by vm_compute].
  destruct (visitor_binds "" t1 w Hw) as (l & Hl & Hb). exists l.
  split; [exact Hl|]. split.
  - by destruct (bound_visitor "" t2 _ l Hb) as (? & _).
  - pose proof (bound_Allow "" l (Some l) a1 _ Hb) as Hb'.
    by destruct (bound_visitor "" t2 _ l Hb') as (? & _ & ?).
Qed.

Lemma empty_identity_one_bucket_witness :
  reachable (New [])
  ∧ (visitor "" 1 (New [])).1 = (visitor "" 3 (visitor "" 1 (New [])).2).1.
Proof.
  split; [apply reach_New|].
  destruct (empty_identity_one_bucket (New []) 1 2 3 (reach_New []))
    as [(l & H1 & H2 & _) _].
  by rewrite H1, H2.
Defined.

(** ** The sweep *)

Lemma elem_of_cleanup_visit (x k : string) (now : Z) (w : world) (v : option nat) :
  x ∈ cleanup_visit now w k v ↔
  x = k ∧ match v with
          | None => True
          | Some a => ttl (opts (self w)) ≤ time.Since now (lastSeen (recs w !!! a))
          end.
Proof.
  unfold cleanup_visit. destruct v as [a|]; simpl.
  - destruct (Z.leb_spec (ttl (opts (self w))) (time.Since now (lastSeen (recs w !!! a)))).
    + rewrite list_elem_of_singleton. naive_solver.
    + split; [by intros ?%elem_of_nil|]. intros [_ ?]. lia.
  - rewrite elem_of_cons, list_elem_of_singleton. naive_solver.
Qed.

Lemma elem_of_foldl_app {A B} (f : A → list B) (l : list A) (acc : list B) (x : B) :
  x ∈ foldl (fun acc a => acc ++ f a) acc l ↔ x ∈ acc ∨ ∃ a, a ∈ l ∧ x ∈ f a.
Proof.
  revert acc. induction l as [|a l IH]; intros acc; simpl.
  - split; [by left|]. intros [?|(? & ?%elem_of_nil & _)]; done.
  - rewrite IH, elem_of_app. split.
    + intros [[?|?]|(b & ? & ?)]; [by left|right; exists a|right; exists b].
      * split; [left|done].
      * split; [by right|done].
    + intros [?|(b & [->|?]%elem_of_cons & ?)]; [by left; left|by left; right|].
      right. by exists b.
Qed.

(** The slice that [make] returns holds the empty string as soon as the
    registry has two entries. *)
Lemma elem_of_cleanup_make (k : string) (w : world) :
  k ∈ cleanup_make w ↔ k = ""%string ∧ (2 ≤ size (storage (self w)))%nat.
Proof.
  unfold cleanup_make. rewrite elem_of_replicate, Z.shiftr_div_pow2 by lia.
  change (2 ^ 1) with 2.
  assert (Z.to_nat (Z.of_nat (size (storage (self w))) / 2) ≠ 0%nat
          ↔ (2 ≤ size (storage (self w)))%nat) as ->; [|done].
  split.
  - intros H. destruct (decide (2 ≤ size (storage (self w)))%nat) as [|Hlt]; [done|].
    exfalso. apply H. rewrite Z.div_small by lia. done.
  - intros H. assert (1 ≤ Z.of_nat (size (storage (self w))) / 2).
    { apply Z.div_le_lower_bound; lia. }
    lia.
Qed.

Lemma elem_of_cleanup_scan (exp : list string) (now : string → Z) (w : world) (k : string) :
  k ∈ cleanup_scan exp now w ↔
  k ∈ exp
  ∨ ∃ v, storage (self w) !! k = Some v
         ∧ match v with
           | None => True
           | Some a => ttl (opts (self w)) ≤ time.Since (now k) (lastSeen (recs w !!! a))
           end.
Proof.
  unfold cleanup_scan.
  rewrite (elem_of_foldl_app (fun kv => cleanup_visit (now kv.1) w kv.1 kv.2)).
  split; (intros [?|H]; [by left|right]).
  - destruct H as ([k' v] & Hin%elem_of_map_to_list & Hx%elem_of_cleanup_visit).
    simpl in Hx. destruct Hx as [-> Hv]. by exists v.
  - destruct H as (v & Hk & Hv). exists (k, v). split; [by apply elem_of_map_to_list|].
    by apply elem_of_cleanup_visit.
Qed.

Lemma cleanup_lookup (now : string → Z) (w : world) (k : string) :
  storage (self (cleanup now w)) !! k =
    if decide (k ∈ cleanup_scan (cleanup_make w) now w) then None
    else storage (self w) !! k.
Proof. unfold cleanup, cleanup_delete. simpl. apply lookup_foldl_delete. Qed.

(** What one sweep does in a well-formed world: it deletes the idle entries
    and, when the registry holds two entries or more, the entry of the empty
    identity; every other entry stays as it was. *)
Lemma cleanup_spec (now : string → Z) (w : world) (k : string) :
  wf w →
  (storage (self (cleanup now w)) !! k = None ↔
     storage (self w) !! k = None
     ∨ idle now w k
     ∨ (k = ""%string ∧ (2 ≤ size (storage (self w)))%nat))
  ∧ (storage (self (cleanup now w)) !! k = None
     ∨ storage (self (cleanup now w)) !! k = storage (self w) !! k).
Proof.
  intros Hw. rewrite cleanup_lookup.
  destruct (decide (k ∈ cleanup_scan (cleanup_make w) now w)) as [Hin|Hnin].
  - split; [|by left]. split; [intros _|done].
    apply elem_of_cleanup_scan in Hin as [Hm|(v & Hk & Hv)].
    + right; right. by apply elem_of_cleanup_make.
    + destruct (wf_storage _ Hw k v Hk) as (a & -> & _).
      right; left. by exists a.
  - split; [|by right]. split; [by left|].
    intros [?|[(a & Hk & Ha)|Hm]]; [done|exfalso; apply Hnin..].
    + apply elem_of_cleanup_scan. right. by exists (Some a).
    + apply elem_of_cleanup_scan. left. by apply elem_of_cleanup_make.
Qed.

(** C1 at a failing input: with two entries just seen, for "" and for
    "1.1.1.1", and the default TTL, neither entry is idle, yet the sweep
    deletes the entry of the empty identity (and keeps the other). *)
Theorem cleanup_deletes_fresh_empty_identity :
  let w := (visitor "1.1.1.1" 0 (visitor "" 0 (New [])).2).2 in
  let now := fun _ : string => 1 in
  storage (self w) !! ""%string = Some (Some 0%nat)
  ∧ storage (self w) !! "1.1.1.1"%string = Some (Some 1%nat)
  ∧ ¬ idle now w ""
  ∧ ¬ idle now w "1.1.1.1"
  ∧ storage (self (cleanup now w)) !! ""%string = None
  ∧ storage (self (cleanup now w)) !! "1.1.1.1"%string = Some (Some 1%nat).
Proof.
  intros w now.
  assert (storage (self w) !! ""%string = Some (Some 0%nat)) as H0 by (by vm_compute).
  assert (storage (self w) !! "1.1.1.1"%string = Some (Some 1%nat)) as H1 by (by vm_compute).
  split; [exact H0|]. split; [exact H1|]. split; [|split; [|split]].
  - intros (a & Ha & Hle). rewrite H0 in Ha. injection Ha as <-.
    vm_compute in Hle. by apply Hle.
  - intros (a & Ha & Hle). rewrite H1 in Ha. injection Ha as <-.
    vm_compute in Hle. by apply Hle.
  - by vm_compute.
  - by vm_compute.
Qed.

(** The same in every reachable world: a sweep of a registry with two
    entries or more leaves no entry for the empty identity, whatever its
    age. *)
Lemma cleanup_deletes_empty_identity (now : string → Z) (w : world) :
  reachable w → (2 ≤ size (storage (self w)))%nat →
  storage (self (cleanup now w)) !! ""%string = None.
Proof.
  intros Hw%reachable_wf Hsz.
  apply (cleanup_spec now w "" Hw). by right; right.
Qed.

(** ** The token bucket at rate zero *)

(** A bucket of rate zero holding [k] whole tokens admits exactly when
    [k >= 1], and then holds one token less; no clock reading refills it. *)
Lemma Allow_zero_rate (now : Z) (b : rate.Limiter) (r : Q) (k : Z) :
  rate.limit b = rate.Finite r → (r == 0)%Q →
  (rate.tokens b == inject_Z k)%Q → 0 ≤ k ≤ rate.burst b →
  (rate.Allow now b).1 = (1 <=? k)
  ∧ rate.limit (rate.Allow now b).2 = rate.Finite r
  ∧ rate.burst (rate.Allow now b).2 = rate.burst b
  ∧ (rate.tokens (rate.Allow now b).2 == inject_Z (if 1 <=? k then k - 1 else k))%Q.
Proof.
  intros Hlim Hr Htok Hk. unfold rate.Allow. rewrite Hlim.
  assert (rate.refill r now b == inject_Z k)%Q as Ht.
  { unfold rate.refill. rewrite Hr, Qmult_0_r, Qplus_0_r, Htok.
    apply Q.min_r. rewrite <- Zle_Qle. lia. }
  destruct (Qle_bool 1 (rate.refill r now b)) eqn:Hle; simpl.
  - apply Qle_bool_iff in Hle. rewrite Ht in Hle.
    change 1%Q with (inject_Z 1) in Hle. rewrite <- Zle_Qle in Hle.
    apply Z.leb_le in Hle as Hle'. rewrite Hle'. repeat split; try done.
    rewrite Ht. unfold Z.sub. rewrite inject_Z_plus, inject_Z_opp. reflexivity.
  - assert (¬ 1 ≤ k) as Hlt.
    { intros H1. rewrite Zle_Qle in H1. change (inject_Z 1) with 1%Q in H1.
      rewrite <- Ht in H1. apply Qle_bool_iff in H1. congruence. }
    apply Z.leb_nle in Hlt. rewrite Hlt. by repeat split.
Qed.

(** A custom period with zero requests gives the rate zero. *)
Lemma limit_of_zero_requests (p : Z) :
  p ≠ 0 → ∃ r, limit_of 0 p = rate.Finite r ∧ (r == 0)%Q.
Proof.
  intros Hp. unfold limit_of. apply Z.eqb_neq in Hp. rewrite Hp.
  eexists. split; [reflexivity|]. unfold Qdiv. apply Qmult_0_l.
Qed.

Lemma visitorAllow_stocked (ip : string) (now_v now_a : Z) (w : world) (r : Q) (c k : Z) :
  stocked w ip r c k → (r == 0)%Q → 0 ≤ k ≤ c →
  (visitorAllow ip now_v now_a w).1 = Ok (1 <=? k)
  ∧ stocked (visitorAllow ip now_v now_a w).2 ip r c (if 1 <=? k then k - 1 else k).
Proof.
  intros (l & Hb & Hl & Hlim & Hc & Htok) Hr Hk. unfold visitorAllow.
  destruct (bound_visitor ip now_v w l Hb) as (Hv & Hb1 & Hlims).
  destruct (visitor ip now_v w) as [res w1]. simpl in Hv, Hb1, Hlims. subst res.
  rewrite <- Hlims in Hl, Hlim, Hc, Htok.
  pose proof (bound_Allow ip l (Some l) now_a w1 Hb1) as Hb2.
  subst c.
  destruct (Allow_zero_rate now_a (lims w1 !!! l) r k Hlim Hr Htok Hk)
    as (Hok & Hlim' & Hc' & Htok').
  unfold Allow in *. destruct (rate.Allow now_a (lims w1 !!! l)) as [ok b].
  simpl in *. subst ok. split; [done|].
  exists l. simpl. rewrite length_insert, list_lookup_total_insert_eq by done.
  by repeat split.
Qed.

Lemma visitorAllow_fresh (ip : string) (now_v now_a : Z) (w : world) (r : Q) :
  storage (self w) !! ip = None →
  limit (self w) = rate.Finite r → (r == 0)%Q → 0 ≤ burst (opts (self w)) →
  (visitorAllow ip now_v now_a w).1 = Ok (1 <=? burst (opts (self w)))
  ∧ stocked (visitorAllow ip now_v now_a w).2 ip r (burst (opts (self w)))
            (if 1 <=? burst (opts (self w)) then burst (opts (self w)) - 1
             else burst (opts (self w))).
Proof.
  intros Hip Hlim Hr Hc. unfold visitorAllow. rewrite (visitor_miss _ _ _ Hip).
  set (l := length (lims w)).
  set (w1 := visitor_store ip now_v (Some l) (visitor_new w).2).
  assert (lims w1 !!! l = rate.NewLimiter (limit (self w)) (burst (opts (self w)))) as Hnew.
  { subst w1 l. simpl. by rewrite list_lookup_total_middle. }
  assert (l < length (lims w1))%nat as Hl.
  { subst w1 l. simpl. rewrite length_app. simpl. lia. }
  assert (bound w1 ip l) as Hb.
  { exists (length (recs w)). subst w1. simpl.
    rewrite lookup_insert_eq, length_app, list_lookup_total_middle by done.
    simpl. split; [done|]. split; [lia|done]. }
  pose proof (bound_Allow ip l (Some l) now_a w1 Hb) as Hb2.
  destruct (Allow_zero_rate now_a (lims w1 !!! l) r (burst (opts (self w))))
    as (Hok & Hlim' & Hc' & Htok').
  { by rewrite Hnew. }
  { done. }
  { by rewrite Hnew. }
  { rewrite Hnew. simpl. lia. }
  unfold Allow in *. destruct (rate.Allow now_a (lims w1 !!! l)) as [ok b].
  simpl in *. subst ok. split; [done|].
  exists l. simpl. rewrite length_insert, list_lookup_total_insert_eq by done.
  rewrite Hnew in Hc'. by repeat split.
Qed.

Lemma admits_cons (ip : string) (t : Z * Z) (clock : list (Z * Z)) (w : world) :
  (admits ip (t :: clock) w).1 =
    (visitorAllow ip t.1 t.2 w).1 :: (admits ip clock (visitorAllow ip t.1 t.2 w).2).1.
Proof.
  destruct t as [now_v now_a]. simpl.
  destruct (visitorAllow ip now_v now_a w) as [res w1]. simpl.
  by destruct (admits ip clock w1).
Qed.

Lemma admits_stocked (ip : string) (clock : list (Z * Z)) (r : Q) (c : Z) :
  (r == 0)%Q →
  ∀ (w : world) (k : Z), stocked w ip r c k → 0 ≤ k ≤ c →
    (admits ip clock w).1 = (fun i => Ok (Z.of_nat i <? k)) <$> seq 0 (length clock).
Proof.
  intros Hr. induction clock as [|t clock IH]; intros w k Hs Hk; [done|].
  rewrite admits_cons.
  destruct (visitorAllow_stocked ip t.1 t.2 w r c k Hs Hr Hk) as [-> Hs'].
  cbn [length seq fmap list_fmap]. f_equal.
  - f_equal. destruct (Z.leb_spec 1 k), (Z.ltb_spec (Z.of_nat 0) k); lia || done.
  - rewrite (IH _ _ Hs') by (destruct (1 <=? k) eqn:E; [apply Z.leb_le in E|]; lia).
    rewrite <- fmap_S_seq, <- list_fmap_compose. apply list_fmap_ext.
    intros _ i _. simpl. f_equal.
    destruct (Z.leb_spec 1 k).
    + destruct (Z.ltb_spec (Z.of_nat i) (k - 1)), (Z.ltb_spec (Z.of_nat (S i)) k);
        lia || done.
    + destruct (Z.ltb_spec (Z.of_nat i) k), (Z.ltb_spec (Z.of_nat (S i)) k);
        lia || done.
Qed.

(** C7: for an identity the registry does not hold yet, on a limiter of
    refill rate zero and capacity [C = burst], a run of admission calls at
    any clock readings admits call number [i] (from 0) exactly when
    [i < C]: the first [C] calls admit, every later call rejects, and no
    token is ever added. *)
Theorem zero_rate_admits_burst (w : world) (ip : string) (clock : list (Z * Z)) (r : Q) :
  storage (self w) !! ip = None →
  limit (self w) = rate.Finite r → (r == 0)%Q →
  0 ≤ burst (opts (self w)) →
  (admits ip clock w).1
  = (fun i => Ok (Z.of_nat i <? burst (opts (self w)))) <$> seq 0 (length clock).
Proof.
  intros Hip Hlim Hr Hc. destruct clock as [|t clock]; [done|].
  rewrite admits_cons.
  destruct (visitorAllow_fresh ip t.1 t.2 w r Hip Hlim Hr Hc) as [-> Hs].
  set (c := burst (opts (self w))) in *.
  cbn [length seq fmap list_fmap]. f_equal.
  - f_equal. destruct (Z.leb_spec 1 c), (Z.ltb_spec (Z.of_nat 0) c); lia || done.
  - rewrite (admits_stocked ip clock r c Hr _ _ Hs)
      by (destruct (1 <=? c) eqn:E; [apply Z.leb_le in E|]; lia).
    rewrite <- fmap_S_seq, <- list_fmap_compose. apply list_fmap_ext.
    intros _ i _. simpl. f_equal.
    destruct (Z.leb_spec 1 c).
    + destruct (Z.ltb_spec (Z.of_nat i) (c - 1)), (Z.ltb_spec (Z.of_nat (S i)) c);
        lia || done.
    + destruct (Z.ltb_spec (Z.of_nat i) c), (Z.ltb_spec (Z.of_nat (S i)) c);
        lia || done.
Qed.

Lemma zero_rate_admits_burst_witness :
  let w := New [Burst 2; Period 0 (5 * time.Second)] in
  let clock := [(1, 2); (3, 4); (5 * time.Minute, 6 * time.Minute); (7 * time.Minute, 8 * time.Minute)] in
  storage (self w) !! "1.1.1.1"%string = None
  ∧ limit (self w) = limit_of 0 (5 * time.Second)
  ∧ 0 ≤ burst (opts (self w))
  ∧ (admits "1.1.1.1" clock w).1 = [Ok true; Ok true; Ok false; Ok false].
Proof.
  intros w clock.
  split; [reflexivity|]. split; [reflexivity|]. split; [by vm_compute|].
  exact (zero_rate_admits_burst w "1.1.1.1" clock
           (inject_Z 0 / (inject_Z (5 * time.Second) / inject_Z time.Second))
           eq_refl eq_refl eq_refl
           (fun H : (0 ?= burst (opts (self w))) = Gt => ltac:(discriminate H))).
Defined.

(** ** The middlewares and the allow-list *)

Lemma visitorAllow_dom (ip : string) (now_v now_a : Z) (w : world) :
  dom (storage (self (visitorAllow ip now_v now_a w).2)) = dom (storage (self w)) ∪ {[ip]}.
Proof.
  unfold visitorAllow. pose proof (visitor_dom ip now_v w) as Hd.
  destruct (visitor ip now_v w) as [[l|] w1]; simpl in *; [|done].
  destruct l as [a|]; simpl; [|done].
  by destruct (rate.Allow now_a (lims w1 !!! a)).
Qed.

(** The plain HTTP middleware serves an allow-listed identity by calling
    the next handler and nothing else: no 429 of its own, and the world
    (registry, records, buckets) is the one it was given. *)
Lemma Limit_whiteListed (TrimSpace : string → string)
    (SplitHostPort : string → option (string * string))
    (next : ResponseWriter → ResponseWriter) (r : Request)
    (now_v now_a : Z) (w : world) (rw : ResponseWriter) :
  whiteListed (self w) (LimitIP TrimSpace SplitHostPort r (self w)) = true →
  Limit TrimSpace SplitHostPort next r now_v now_a w rw = (Ok (next rw), w).
Proof. intros H. unfold Limit. by rewrite H. Qed.

(** The Gin middleware goes on to the registry whatever the allow-list
    says: after it ran, the identity has an entry. *)
Lemma GinLimit_visits (TrimSpace : string → string) (nhandlers : Z)
    (downstream : ResponseWriter → ResponseWriter)
    (now_v now_a : Z) (w : world) (c : Context) :
  GinLimitIP TrimSpace c (self w)
  ∈ dom (storage (self (GinLimit TrimSpace nhandlers downstream now_v now_a w c).2)).
Proof.
  unfold GinLimit.
  pose proof (visitorAllow_dom (GinLimitIP TrimSpace c (self w)) now_v now_a w) as Hd.
  destruct (visitorAllow (GinLimitIP TrimSpace c (self w)) now_v now_a w) as [[[|]|] w1];
    simpl in *; rewrite Hd; set_solver.
Qed.

(** C3 at a failing input: the limiter allow-lists "1.1.1.1" and is built
    with [RpsWithBurst(0, 0)] as in the repository's test table; a request
    of the client "1.1.1.1" goes through [GinLimit], placed before one
    handler that answers 200 "OK".  The identity is allow-listed and the
    next handler runs, but [GinLimit] does not return there: it creates a
    registry entry and a bucket for the identity, spends the lookup's
    admission on it, writes 429 "Too many requests" and aborts.  [Limit]
    on the same request (its header names the client, and trimming leaves
    "1.1.1.1" as it is) only calls the next handler and leaves the world as
    it was. *)
Theorem GinLimit_whiteListed_falls_through (TrimSpace : string → string)
    (SplitHostPort : string → option (string * string)) :
  let w := New [AllowedIPs ["1.1.1.1"%string]; RpsWithBurst 0 0] in
  let ok := fun rw : ResponseWriter => rw ++ [(200, "OK"%string)] in
  let c := {| GetHeader := fun _ => ""%string; ClientIP := "1.1.1.1"; Writer := []; index := 0 |} in
  let r := {| Header := fun _ => "1.1.1.1"%string; RemoteAddr := "192.0.2.1:1234" |} in
  whiteListed (self w) (GinLimitIP TrimSpace c (self w)) = true
  ∧ storage (self w) = ∅
  ∧ (∃ c', (GinLimit TrimSpace 2 ok 1 2 w c).1 = Ok c'
           ∧ Writer c' = [(200, "OK"%string); (429, "Too many requests"%string)]
           ∧ index c' = abortIndex)
  ∧ storage (self (GinLimit TrimSpace 2 ok 1 2 w c).2) !! "1.1.1.1"%string = Some (Some 0%nat)
  ∧ length (lims (GinLimit TrimSpace 2 ok 1 2 w c).2) = 1%nat
  ∧ Limit (fun s => s) SplitHostPort ok r 1 2 w [] = (Ok [(200, "OK"%string)], w).
Proof.
  intros w ok c r.
  split; [reflexivity|]. split; [reflexivity|]. split; [|split; [|split]].
  - eexists. split; [by vm_compute|]. split; reflexivity.
  - by vm_compute.
  - by vm_compute.
  - reflexivity.
Qed.

(** ** Racing goroutines *)

(** A goroutine alone runs [visitor]: its three critical sections, one
    after the other, are the sequential call. *)
Lemma run_alone (ip : string) (now : Z) (w : world) :
  Race.run [(0%nat, now); (0%nat, now); (0%nat, now)] ([Race.Enter ip], w)
  = ([Race.Returned (visitor ip now w).1], (visitor ip now w).2).
Proof.
  unfold Race.run, Race.sched, visitor. simpl.
  destruct (visitor_find ip w) as [v|]; simpl; [|done].
  by destruct v.
Qed.

Lemma step_grows (now : Z) (g : Race.goroutine) (w : world) :
  (length (recs w) ≤ length (recs (Race.step now g w).2))%nat
  ∧ (length (lims w) ≤ length (lims (Race.step now g w).2))%nat.
Proof.
  destruct g as [ip|ip|ip l|v|v|r| |exp|exp| ]; simpl; try (split; lia).
  - destruct (visitor_find ip w); simpl; split; lia.
  - rewrite length_app. simpl. split; lia.
  - rewrite length_app. simpl. split; lia.
  - destruct v; simpl; [rewrite length_alter|]; split; lia.
Qed.

Lemma gwf_mono (w w' : world) (g : Race.goroutine) :
  (length (recs w) ≤ length (recs w'))%nat →
  (length (lims w) ≤ length (lims w'))%nat →
  Race.gwf w g → Race.gwf w' g.
Proof.
  intros Hr Hl. destruct g as [ip|ip|ip l|v|v|r| |exp|exp| ]; simpl; try done.
  - lia.
  - intros (a & -> & Ha). exists a. split; [done|lia].
  - intros (a & -> & Ha). exists a. split; [done|lia].
  - intros (l & -> & Ha). exists l. split; [done|lia].
Qed.

(** A critical section keeps the world well formed and leaves its goroutine
    holding allocated objects; a returning lookup returns a bucket. *)
Lemma step_wf (now : Z) (g : Race.goroutine) (w : world) :
  wf w → Race.gwf w g →
  wf (Race.step now g w).2 ∧ Race.gwf (Race.step now g w).2 (Race.step now g w).1.
Proof.
  intros Hw Hg. destruct g as [ip|ip|ip l|v|v|r| |exp|exp| ]; simpl in *.
  - unfold visitor_find. destruct (storage (self w) !! ip) as [v|] eqn:Hip; simpl; [|done].
    split; [done|]. exact (wf_storage _ Hw ip v Hip).
  - split; [by apply wf_visitor_new|]. rewrite length_app. simpl. lia.
  - split; [by apply wf_visitor_store|]. by exists l.
  - split; [by apply wf_visitor_touch|].
    destruct Hg as (a & -> & Ha). exists a. simpl. by rewrite length_alter.
  - split; [done|]. destruct Hg as (a & -> & Ha). simpl.
    destruct (wf_recs _ Hw a _ (list_lookup_lookup_total_lt _ _ Ha)) as (l & Hl & Hlt).
    exists l. by rewrite Hl.
  - done.
  - done.
  - done.
  - split; [by apply wf_cleanup_delete|done].
  - done.
Qed.

Lemma sched_safe (s : Race.system) (pick : nat * Z) :
  Race.safe s → Race.safe (Race.sched s pick).
Proof.
  intros [Hw Hgs]. unfold Race.sched.
  destruct (s.1 !! pick.1) as [g|] eqn:Hg; [|done].
  pose proof (step_grows pick.2 g s.2) as [Hr Hl].
  assert (Race.gwf s.2 g) as Hgw by (eapply Forall_lookup_1; eauto).
  destruct (step_wf pick.2 g s.2 Hw Hgw) as [Hw' Hg'].
  destruct (Race.step pick.2 g s.2) as [g' w']. simpl in *.
  split; simpl; [done|].
  apply Forall_insert; [|done].
  eapply Forall_impl; [exact Hgs|]. intros g0. by apply gwf_mono.
Qed.

Lemma run_safe (schedule : list (nat * Z)) (s : Race.system) :
  Race.safe s → Race.safe (Race.run schedule s).
Proof.
  revert s. induction schedule as [|pick schedule IH]; intros s Hs; [done|].
  simpl. apply IH. by apply sched_safe.
Qed.

(** X15: under every schedule of goroutines that call [visitor] and [cleanup]
    on a reachable world, no stored record pointer is nil and every lookup
    that has returned has returned a bucket: none has panicked. *)
Lemma race_no_panic (gs : list Race.goroutine) (w : world) (schedule : list (nat * Z)) :
  reachable w → Forall Race.fresh gs →
  (∀ k v, storage (self (Race.run schedule (gs, w)).2) !! k = Some v → v ≠ None)
  ∧ ∀ i r, (Race.run schedule (gs, w)).1 !! i = Some (Race.Returned r) →
           ∃ l, r = Ok (Some l).
Proof.
  intros Hw%reachable_wf Hgs.
  assert (Race.safe (gs, w)) as Hs.
  { split; [done|]. simpl. eapply Forall_impl; [exact Hgs|].
    by intros [ip|ip|ip l|v|v|r| |exp|exp| ]. }
  apply (run_safe schedule) in Hs as [Hw' Hgs']. split.
  - intros k v Hk. by destruct (wf_storage _ Hw' k v Hk) as (a & -> & _).
  - intros i r Hi. pose proof (Forall_lookup_1 _ _ _ _ Hgs' Hi) as (l & -> & _).
    by exists l.
Qed.

(** Only the deletes of a sweep remove entries: no other critical section
    does, whatever the interleaving. *)
Lemma step_keeps_entries (now : Z) (g : Race.goroutine) (w : world) :
  (∀ exp, g ≠ Race.Deleting exp) →
  dom (storage (self w)) ⊆ dom (storage (self (Race.step now g w).2)).
Proof.
  intros Hg. destruct g as [ip|ip|ip l|v|v|r| |exp|exp| ]; simpl; try done.
  - by destruct (visitor_find ip w).
  - rewrite dom_insert_L. set_solver.
  - by rewrite visitor_touch_self.
  - by destruct (Hg exp).
Qed.

(** C2 at a failing schedule: two goroutines look up the unseen identity
    "1.1.1.1" on a limiter of capacity 1; both run the read-locked lookup
    before either stores.  Each then makes a bucket, stores a record and
    returns its own bucket: the callers hold two different buckets, the
    registry keeps one entry (bound to the second caller's bucket), and
    the admission of each caller succeeds, two admissions on a capacity of
    one.  When the second goroutine enters after the first has returned,
    both get the same bucket. *)
Theorem racing_first_lookups_two_buckets :
  let w := New [RpsWithBurst 1 1] in
  let gs := [Race.Enter "1.1.1.1"; Race.Enter "1.1.1.1"] in
  let raced :=
    Race.run [(0%nat, 1); (1%nat, 2); (0%nat, 3); (1%nat, 4); (0%nat, 5); (1%nat, 6)] (gs, w) in
  let serial :=
    Race.run [(0%nat, 1); (0%nat, 2); (0%nat, 3); (1%nat, 4); (1%nat, 5); (1%nat, 6)] (gs, w) in
  storage (self w) !! "1.1.1.1"%string = None
  ∧ raced.1 = [Race.Returned (Ok (Some 0%nat)); Race.Returned (Ok (Some 1%nat))]
  ∧ size (storage (self raced.2)) = 1%nat
  ∧ bound raced.2 "1.1.1.1" 1
  ∧ (Allow (Some 0%nat) 7 raced.2).1 = Ok true
  ∧ (Allow (Some 1%nat) 8 (Allow (Some 0%nat) 7 raced.2).2).1 = Ok true
  ∧ serial.1 = [Race.Returned (Ok (Some 0%nat)); Race.Returned (Ok (Some 0%nat))].
Proof.
  intros w gs raced serial.
  split; [reflexivity|]. split; [by vm_compute|]. split; [by vm_compute|].
  split; [|split; [by vm_compute|split; by vm_compute]].
  exists 1%nat. split; [by vm_compute|]. split; [vm_compute; lia|by vm_compute].
Qed.

(** * Further properties of the code *)

(** ** Options *)

Lemma valid_defautlOptions : valid_options defautlOptions.
Proof. by vm_compute. Qed.

Lemma exported_valid (opt : option_) (o : limiterOptions) :
  exported opt → valid_options o → valid_options (opt o).
Proof.
  intros Hopt (Hr & Hb & Ht & Hp & Hc). unfold valid_options.
  destruct Hopt as [rps b|rps|b|n p|cf|t|ip|prefix|h]; simpl.
  - destruct (Z.ltb_spec rps 0), (Z.ltb_spec b 0); unfold defaultRps; repeat split; lia.
  - destruct (Z.ltb_spec rps 0); unfold defaultRps; repeat split; lia.
  - destruct (Z.ltb_spec b 0); unfold defaultBurst; repeat split; lia.
  - destruct (Z.ltb_spec p 0), (Z.ltb_spec n 0); repeat split; try lia; by vm_compute.
  - destruct (Z.leb_spec cf 0); repeat split; try lia; by vm_compute.
  - destruct (Z.ltb_spec t 0); repeat split; try lia; by vm_compute.
  - repeat split; lia.
  - repeat split; lia.
  - repeat split; lia.
Qed.

Lemma foldl_exported_valid (os : list option_) (o : limiterOptions) :
  Forall exported os → valid_options o →
  valid_options (foldl (fun o opt => opt o) o os).
Proof.
  revert o. induction os as [|opt os IH]; intros o Hos Ho; [done|].
  apply Forall_cons in Hos as [Hopt Hos]. simpl. apply IH; [done|].
  by apply exported_valid.
Qed.

(** X1: whatever exported options a caller passes, in any number and order, the
    limiter [New] builds has no negative rate, burst, TTL or period and a
    positive sweep interval, and its refill rate is not minus infinity nor a
    negative number. *)
Theorem New_options_valid (os : list option_) :
  Forall exported os →
  valid_options (opts (self (New os)))
  ∧ limit (self (New os)) ≠ rate.NegInf
  ∧ ∀ r, limit (self (New os)) = rate.Finite r → (0 <= r)%Q.
Proof.
  intros Hos.
  pose proof (foldl_exported_valid os defautlOptions Hos valid_defautlOptions)
    as (Hr & Hb & Ht & Hp & Hc).
  split; [done|]. simpl. unfold limit_of.
  set (o := foldl (fun o opt => opt o) defautlOptions os) in *.
  destruct (Z.eqb_spec (period o) 0) as [Hp0|Hp0].
  - destruct (Z.eqb_spec (requests o) 0); [done|].
    destruct (Z.ltb_spec 0 (requests o)); [done|lia].
  - split; [done|]. intros r [= <-].
    apply Qle_shift_div_l.
    + apply Qlt_shift_div_l; [done|]. rewrite Qmult_0_l.
      rewrite <- (Zlt_Qlt 0). lia.
    + rewrite Qmult_0_l. by rewrite <- (Zle_Qle 0).
Qed.

Lemma New_options_valid_witness :
  Forall exported [Rps (-3); Period (-1) (-1); CleanupFrequency 0; RecordTTL (-7)]
  ∧ valid_options
      (opts (self (New [Rps (-3); Period (-1) (-1); CleanupFrequency 0; RecordTTL (-7)]))).
Proof.
  assert (Forall exported [Rps (-3); Period (-1) (-1); CleanupFrequency 0; RecordTTL (-7)])
    as H by (repeat constructor).
  split; [exact H|]. exact (proj1 (New_options_valid _ H)).
Defined.

Lemma New_snoc2 (os : list option_) (o1 o2 : option_) :
  opts (self (New (os ++ [o1; o2]))) = o2 (o1 (opts (self (New os)))).
Proof.
  change (os ++ [o1; o2]) with (os ++ [o1] ++ [o2]).
  by rewrite app_assoc, !New_snoc.
Qed.

(** X2: the order of [Rps] and [Burst] matters: [Rps] sets the burst too, so a
    [Burst] given before it is lost and one given after it stands; the rate
    is the one of [Rps] both ways. *)
Theorem Rps_Burst_order (os : list option_) (r b : Z) :
  0 ≤ r → 0 ≤ b →
  burst (opts (self (New (os ++ [Burst b; Rps r])))) = r
  ∧ requests (opts (self (New (os ++ [Burst b; Rps r])))) = r
  ∧ burst (opts (self (New (os ++ [Rps r; Burst b])))) = b
  ∧ requests (opts (self (New (os ++ [Rps r; Burst b])))) = r.
Proof.
  intros Hr Hb. rewrite !New_snoc2. unfold Rps, Burst.
  apply Z.ltb_ge in Hr, Hb. by rewrite Hr, Hb.
Qed.

Lemma Rps_Burst_order_witness :
  0 ≤ 10 ∧ 0 ≤ 15
  ∧ burst (opts (self (New [Burst 15; Rps 10]))) = 10
  ∧ burst (opts (self (New [Rps 10; Burst 15]))) = 15.
Proof.
  split; [lia|]. split; [lia|].
  destruct (Rps_Burst_order [] 10 15) as (H1 & _ & H3 & _); [lia|lia|].
  by split.
Defined.

(** X3: [Period(n, p)] as the last option, with a positive period, gives a
    finite refill rate that is not negative, and is zero exactly when [n]
    is zero, whatever the options before it: [Period(0, p)] never refills
    and every [n > 0] does. *)
Theorem Period_rate (os : list option_) (n p : Z) :
  0 ≤ n → 0 < p →
  ∃ q, limit (self (New (os ++ [Period n p]))) = rate.Finite q
       ∧ (0 <= q)%Q
       ∧ ((q == 0)%Q ↔ n = 0).
Proof.
  intros Hn Hp.
  assert (opts (self (New (os ++ [Period n p]))) = Period n p (opts (self (New os))))
    as Ho by apply New_snoc.
  unfold New in *. simpl in *. rewrite Ho. unfold Period.
  apply Z.ltb_ge in Hn as Hn'. rewrite Hn'.
  assert ((p <? 0) = false) as Hp' by (apply Z.ltb_ge; lia). rewrite Hp'. simpl.
  unfold limit_of. assert ((p =? 0) = false) as -> by (apply Z.eqb_neq; lia).
  eexists. split; [reflexivity|].
  assert (inject_Z n / (inject_Z p / inject_Z time.Second)
          == inject_Z (n * time.Second) / inject_Z p)%Q as ->.
  { rewrite inject_Z_mult. field. split; [|done]. unfold Qeq. simpl. lia. }
  destruct p as [|pp|pp]; try lia.
  unfold Qdiv, Qmult, Qinv, Qle, Qeq, time.Second, time.Nanosecond. simpl.
  split; lia.
Qed.

Lemma Period_rate_witness :
  0 ≤ 1 ∧ 0 < (5 * time.Second)
  ∧ ∃ q, limit (self (New [Period 1 (5 * time.Second)])) = rate.Finite q ∧ ¬ (q == 0)%Q.
Proof.
  split; [lia|]. split; [by vm_compute|].
  destruct (Period_rate [] 1 (5 * time.Second)) as (q & Hq & _ & Hz); [lia|by vm_compute|].
  exists q. split; [exact Hq|]. intros H. apply Hz in H. discriminate H.
Defined.

(** X4: a zero period is kept as it is (only a negative one is replaced): with
    it the rate is the float quotient by zero, infinite for a positive
    number of requests and not a number for none. *)
Theorem Period_zero (os : list option_) (n : Z) :
  0 < n →
  period (opts (self (New (os ++ [Period n 0])))) = 0
  ∧ limit (self (New (os ++ [Period n 0]))) = rate.Inf
  ∧ limit (self (New (os ++ [Period 0 0]))) = rate.NaN.
Proof.
  intros Hn.
  assert (∀ m, opts (self (New (os ++ [Period m 0]))) = Period m 0 (opts (self (New os))))
    as Ho by (intros m; apply New_snoc).
  pose proof (Ho n) as Hon. pose proof (Ho 0) as Ho0.
  unfold New in *. simpl in *. rewrite Hon, Ho0. unfold Period.
  assert ((n <? 0) = false) as -> by (apply Z.ltb_ge; lia). simpl.
  unfold limit_of. simpl.
  assert ((n =? 0) = false) as -> by (apply Z.eqb_neq; lia).
  assert ((0 <? n) = true) as -> by (apply Z.ltb_lt; lia).
  done.
Qed.

Lemma Period_zero_witness :
  0 < 1 ∧ limit (self (New [Period 1 0])) = rate.Inf.
Proof.
  split; [lia|]. destruct (Period_zero [] 1) as (_ & H & _); [lia|]. exact H.
Defined.

(** ** The allow-list and the options *)

Lemma Contains_app (l1 l2 : list string) (v : string) :
  Contains (l1 ++ l2) v = Contains l1 v || Contains l2 v.
Proof.
  induction l1 as [|x l1 IH]; simpl; [done|].
  by destruct (String.eqb v x).
Qed.

Lemma hasPrefixIn_app (l1 l2 : list string) (ip : string) :
  hasPrefixIn (l1 ++ l2) ip = hasPrefixIn l1 ip || hasPrefixIn l2 ip.
Proof.
  induction l1 as [|x l1 IH]; simpl; [done|].
  by destruct (HasPrefix ip x).
Qed.

Lemma whiteListed_AllowedIPs (os : list option_) (ips : list string) (ip : string) :
  whiteListed (self (New (os ++ [AllowedIPs ips]))) ip
  = whiteListed (self (New os)) ip || Contains ips ip.
Proof.
  unfold whiteListed, hasWhitelistedPrefix. rewrite New_snoc. simpl.
  rewrite Contains_app.
  by destruct (Contains _ ip), (Contains ips ip), (hasPrefixIn _ ip).
Qed.

Lemma whiteListed_AllowedPrefixes (os : list option_) (ps : list string) (ip : string) :
  whiteListed (self (New (os ++ [AllowedPrefixes ps]))) ip
  = whiteListed (self (New os)) ip || hasPrefixIn ps ip.
Proof.
  unfold whiteListed, hasWhitelistedPrefix. rewrite New_snoc. simpl.
  by rewrite hasPrefixIn_app, orb_assoc.
Qed.

(** X5: allow-list options add to the allow-list and never replace it: after
    one more [AllowedIPs] or [AllowedPrefixes] an identity is allow-listed
    exactly when it was before or the new option lists it; the rate, burst,
    period, TTL and sweep options leave the allow-list as it was. *)
Theorem allow_list_accumulates (os : list option_) (ip : string) :
  (∀ ips, whiteListed (self (New (os ++ [AllowedIPs ips]))) ip
          = whiteListed (self (New os)) ip || Contains ips ip)
  ∧ (∀ ps, whiteListed (self (New (os ++ [AllowedPrefixes ps]))) ip
           = whiteListed (self (New os)) ip || hasPrefixIn ps ip)
  ∧ (∀ x y, whiteListed (self (New (os ++ [RpsWithBurst x y]))) ip
            = whiteListed (self (New os)) ip)
  ∧ (∀ x, whiteListed (self (New (os ++ [Rps x]))) ip = whiteListed (self (New os)) ip)
  ∧ (∀ x, whiteListed (self (New (os ++ [Burst x]))) ip = whiteListed (self (New os)) ip)
  ∧ (∀ x y, whiteListed (self (New (os ++ [Period x y]))) ip
            = whiteListed (self (New os)) ip)
  ∧ (∀ x, whiteListed (self (New (os ++ [RecordTTL x]))) ip
          = whiteListed (self (New os)) ip)
  ∧ (∀ x, whiteListed (self (New (os ++ [CleanupFrequency x]))) ip
          = whiteListed (self (New os)) ip).
Proof.
  split; [intros; apply whiteListed_AllowedIPs|].
  split; [intros; apply whiteListed_AllowedPrefixes|].
  unfold whiteListed, hasWhitelistedPrefix.
  repeat split; intros; by rewrite New_snoc.
Qed.

(** X6: with the default options no identity is allow-listed; with the empty
    string among the prefixes every identity is. *)
Theorem allow_list_extremes (os : list option_) (ip : string) :
  whiteListed (self (New [])) ip = false
  ∧ whiteListed (self (New (os ++ [AllowedPrefixes [""%string]]))) ip = true.
Proof.
  split; [reflexivity|].
  rewrite whiteListed_AllowedPrefixes.
  assert (hasPrefixIn [""%string] ip = true) as -> by (by destruct ip).
  apply orb_true_r.
Qed.

(** ** The registry: one record and one bucket per identity *)

Lemma separate_New (os : list option_) : separate (New os).
Proof.
  split; simpl.
  - intros k1 k2 a. by rewrite lookup_empty.
  - intros a1 a2 r1 r2 l. by rewrite lookup_nil.
Qed.

Lemma separate_visitor_touch (v : option nat) (now : Z) (w : world) :
  separate w → separate (visitor_touch v now w).
Proof.
  intros [Hs Hr]. destruct v as [a|]; [|done]. split; simpl; [exact Hs|].
  intros a1 a2 r1 r2 l. rewrite !list_lookup_alter.
  intros H1 H2 Hl1 Hl2.
  assert (∀ b r, (if decide (a = b)
                  then (fun r0 => mkRecord now (rlimiter r0)) <$> recs w !! a
                  else recs w !! b) = Some r →
                 ∃ r0, recs w !! b = Some r0 ∧ rlimiter r0 = rlimiter r) as Hold.
  { intros b r. destruct (decide (a = b)) as [<-|Hab].
    - destruct (recs w !! a) as [r0|]; [|done].
      simpl. intros [= <-]. by exists r0.
    - intros Hb. by exists r. }
  destruct (Hold _ _ H1) as (r1' & H1' & E1), (Hold _ _ H2) as (r2' & H2' & E2).
  apply (Hr a1 a2 r1' r2' l H1' H2'); congruence.
Qed.

Lemma separate_visitor_miss (ip : string) (now : Z) (w : world) :
  wf w → separate w →
  separate (visitor_store ip now (Some (length (lims w))) (visitor_new w).2).
Proof.
  intros Hw [Hs Hr]. split; simpl.
  - intros k1 k2 a.
    destruct (decide (ip = k1)) as [<-|H1], (decide (ip = k2)) as [<-|H2]; [done|..].
    + rewrite lookup_insert_eq, lookup_insert_ne by done. intros [= <-] Hk.
      destruct (wf_storage _ Hw _ _ Hk) as (a & [= <-] & Ha). lia.
    + rewrite lookup_insert_ne, lookup_insert_eq by done. intros Hk [= <-].
      destruct (wf_storage _ Hw _ _ Hk) as (a & [= <-] & Ha). lia.
    + rewrite !lookup_insert_ne by done. apply Hs.
  - intros a1 a2 r1 r2 l. rewrite !lookup_snoc_Some.
    intros [[_ H1]|[-> <-]] [[_ H2]|[-> <-]] Hl1 Hl2; simpl in *.
    + by apply (Hr a1 a2 r1 r2 l).
    + destruct (wf_recs _ Hw _ _ H1) as (l' & El & Hlt). injection Hl2 as <-.
      rewrite El in Hl1. injection Hl1 as ->. lia.
    + destruct (wf_recs _ Hw _ _ H2) as (l' & El & Hlt). injection Hl1 as <-.
      rewrite El in Hl2. injection Hl2 as ->. lia.
    + done.
Qed.

Lemma separate_visitor (ip : string) (now : Z) (w : world) :
  wf w → separate w → separate (visitor ip now w).2.
Proof.
  intros Hw Hs. destruct (storage (self w) !! ip) as [v|] eqn:Hip.
  - rewrite (visitor_hit _ _ _ _ Hip). by apply separate_visitor_touch.
  - rewrite (visitor_miss _ _ _ Hip). by apply separate_visitor_miss.
Qed.

Lemma separate_Allow (l : option nat) (now : Z) (w : world) :
  separate w → separate (Allow l now w).2.
Proof.
  intros [Hs Hr]. destruct l as [a|]; [|done]. unfold Allow.
  by destruct (rate.Allow now (lims w !!! a)).
Qed.

Lemma separate_cleanup_delete (exp : list string) (w : world) :
  separate w → separate (cleanup_delete exp w).
Proof.
  intros [Hs Hr]. split; simpl; [|exact Hr].
  intros k1 k2 a. rewrite !lookup_foldl_delete.
  destruct (decide (k1 ∈ exp)); [done|]. destruct (decide (k2 ∈ exp)); [done|].
  apply Hs.
Qed.

Lemma separate_Stop (w : world) : separate w → separate (Stop w).2.
Proof. intros [Hs Hr]. unfold Stop. by destruct (stop (self w)). Qed.

Lemma reachable_separate (w : world) : reachable w → separate w.
Proof.
  induction 1 as [os|ip now w Hw IH|l now w _ IH|now w _ IH|w _ IH].
  - apply separate_New.
  - apply separate_visitor; [by apply reachable_wf|done].
  - by apply separate_Allow.
  - by apply separate_cleanup_delete.
  - by apply separate_Stop.
Qed.

(** Two identities bound in a world that is well formed and separate have
    different buckets. *)
Lemma bound_distinct (w : world) (ip1 ip2 : string) (l1 l2 : nat) :
  separate w → ip1 ≠ ip2 → bound w ip1 l1 → bound w ip2 l2 → l1 ≠ l2.
Proof.
  intros [Hs Hr] Hne (a1 & H1 & Ha1 & Hl1) (a2 & H2 & Ha2 & Hl2) ->.
  apply Hne, (Hs ip1 ip2 a1); [done|].
  rewrite (Hr a1 a2 _ _ l2 (list_lookup_lookup_total_lt _ _ Ha1)
              (list_lookup_lookup_total_lt _ _ Ha2) Hl1 Hl2).
  done.
Qed.

(** A lookup of one identity leaves another identity bound to its bucket. *)
Lemma bound_visitor_other (ip ip' : string) (now : Z) (w : world) (l' : nat) :
  separate w → ip ≠ ip' → bound w ip' l' → bound (visitor ip now w).2 ip' l'.
Proof.
  intros Hs Hne (a' & H' & Ha' & Hl').
  destruct (storage (self w) !! ip) as [v|] eqn:Hip.
  - rewrite (visitor_hit _ _ _ _ Hip). destruct v as [a|]; simpl; [|by exists a'].
    exists a'. simpl. rewrite length_alter. split; [done|]. split; [done|].
    rewrite list_lookup_total_alter_ne; [done|].
    intros ->. apply Hne. by apply (sep_storage _ Hs ip ip' a').
  - rewrite (visitor_miss _ _ _ Hip). exists a'. simpl.
    rewrite lookup_insert_ne, length_app, lookup_total_app_l by done.
    split; [done|]. split; [lia|done].
Qed.

Lemma visitor_lims_old (ip : string) (now : Z) (w : world) (l : nat) :
  (l < length (lims w))%nat → lims (visitor ip now w).2 !!! l = lims w !!! l.
Proof.
  intros Hl. destruct (storage (self w) !! ip) as [v|] eqn:Hip.
  - rewrite (visitor_hit _ _ _ _ Hip). simpl. by rewrite visitor_touch_lims.
  - rewrite (visitor_miss _ _ _ Hip). simpl. by rewrite lookup_total_app_l.
Qed.

(** X7: distinct identities never share a bucket, and a request of one identity
    (lookup and admission) leaves the bucket of every other identity as it
    was: in every world a program reaches, if [ip2] is bound to the bucket
    [l2], a request of [ip1 ≠ ip2] returns a different bucket and changes
    neither the binding of [ip2] nor the state of [l2]. *)
Theorem identities_isolated (w : world) (ip1 ip2 : string) (l2 : nat) (now_v now_a : Z) :
  reachable w → ip1 ≠ ip2 → bound w ip2 l2 →
  (∃ l1, (visitor ip1 now_v w).1 = Ok (Some l1) ∧ l1 ≠ l2)
  ∧ bound (visitorAllow ip1 now_v now_a w).2 ip2 l2
  ∧ lims (visitorAllow ip1 now_v now_a w).2 !!! l2 = lims w !!! l2.
Proof.
  intros Hw Hne Hb2.
  pose proof (reachable_wf _ Hw) as Hwf. pose proof (reachable_separate _ Hw) as Hsep.
  destruct (visitor_binds ip1 now_v w Hwf) as (l1 & Hv & Hb1).
  pose proof (bound_visitor_other ip1 ip2 now_v w l2 Hsep Hne Hb2) as Hb2'.
  pose proof (separate_visitor ip1 now_v w Hwf Hsep) as Hsep'.
  pose proof (bound_distinct _ _ _ _ _ Hsep' Hne Hb1 Hb2') as Hl.
  assert (l2 < length (lims w))%nat as Hl2.
  { destruct Hb2 as (a2 & _ & Ha2 & Hr2).
    destruct (wf_recs _ Hwf a2 _ (list_lookup_lookup_total_lt _ _ Ha2)) as (l & El & Hlt).
    congruence. }
  pose proof (visitor_lims_old ip1 now_v w l2 Hl2) as Hold.
  split; [by exists l1|].
  unfold visitorAllow. destruct (visitor ip1 now_v w) as [res w1]. simpl in *. subst res.
  split; [by apply bound_Allow|].
  unfold Allow. destruct (rate.Allow now_a (lims w1 !!! l1)) as [ok b]. simpl.
  by rewrite list_lookup_total_insert_ne.
Qed.

Lemma identities_isolated_witness :
  reachable (visitor "2.2.2.2" 1 (New [])).2
  ∧ "1.1.1.1"%string ≠ "2.2.2.2"%string
  ∧ bound (visitor "2.2.2.2" 1 (New [])).2 "2.2.2.2" 0
  ∧ lims (visitorAllow "1.1.1.1" 2 3 (visitor "2.2.2.2" 1 (New [])).2).2 !!! 0%nat
    = lims (visitor "2.2.2.2" 1 (New [])).2 !!! 0%nat.
Proof.
  assert (reachable (visitor "2.2.2.2" 1 (New [])).2) as Hw
    by (apply reach_visitor, reach_New).
  assert ("1.1.1.1"%string ≠ "2.2.2.2"%string) as Hne by discriminate.
  assert (bound (visitor "2.2.2.2" 1 (New [])).2 "2.2.2.2" 0) as Hb.
  { exists 0%nat. split; [by vm_compute|]. split; [vm_compute; lia|by vm_compute]. }
  split; [exact Hw|]. split; [exact Hne|]. split; [exact Hb|].
  exact (proj2 (proj2 (identities_isolated _ "1.1.1.1" "2.2.2.2" 0 2 3 Hw Hne Hb))).
Defined.

(** ** The registry: what a lookup writes *)

(** After a lookup the identity's record holds the clock reading of the
    lookup and the bucket that was returned. *)
Lemma visitor_lastSeen (ip : string) (now : Z) (w : world) :
  wf w →
  ∃ a l, storage (self (visitor ip now w).2) !! ip = Some (Some a)
         ∧ (a < length (recs (visitor ip now w).2))%nat
         ∧ lastSeen (recs (visitor ip now w).2 !!! a) = now
         ∧ rlimiter (recs (visitor ip now w).2 !!! a) = Some l
         ∧ (visitor ip now w).1 = Ok (Some l).
Proof.
  intros Hw. destruct (storage (self w) !! ip) as [v|] eqn:Hip.
  - rewrite (visitor_hit _ _ _ _ Hip).
    destruct (wf_storage _ Hw ip v Hip) as (a & -> & Ha).
    destruct (wf_recs _ Hw a _ (list_lookup_lookup_total_lt _ _ Ha)) as (l & Hl & _).
    exists a, l. simpl. rewrite length_alter, list_lookup_total_alter_eq by done.
    simpl. by rewrite Hl.
  - rewrite (visitor_miss _ _ _ Hip). exists (length (recs w)), (length (lims w)). simpl.
    rewrite lookup_insert_eq, length_app, list_lookup_total_middle by done.
    simpl. repeat split; try done. lia.
Qed.

(** X8: a lookup of an identity the registry holds allocates nothing and
    changes no entry and no bucket: it returns the identity's bucket and
    only sets the [lastSeen] of the identity's record; every other record
    is as it was. *)
Theorem visitor_known_identity (w : world) (ip : string) (l : nat) (now : Z) :
  bound w ip l →
  (visitor ip now w).1 = Ok (Some l)
  ∧ storage (self (visitor ip now w).2) = storage (self w)
  ∧ lims (visitor ip now w).2 = lims w
  ∧ length (recs (visitor ip now w).2) = length (recs w)
  ∧ ∃ a, storage (self w) !! ip = Some (Some a)
         ∧ lastSeen (recs (visitor ip now w).2 !!! a) = now
         ∧ rlimiter (recs (visitor ip now w).2 !!! a) = Some l
         ∧ ∀ b, b ≠ a → recs (visitor ip now w).2 !! b = recs w !! b.
Proof.
  intros (a & Hip & Ha & Hl). rewrite (visitor_hit _ _ _ _ Hip). simpl.
  rewrite length_alter, list_lookup_total_alter_eq by done. simpl.
  split; [by rewrite Hl|]. do 3 (split; [done|]).
  exists a. rewrite list_lookup_total_alter_eq by done. simpl.
  do 3 (split; [done|]).
  intros b Hb. by rewrite list_lookup_alter_ne.
Qed.

Lemma visitor_known_identity_witness :
  bound (visitor "1.1.1.1" 1 (New [])).2 "1.1.1.1" 0
  ∧ (visitor "1.1.1.1" 2 (visitor "1.1.1.1" 1 (New [])).2).1 = Ok (Some 0%nat)
  ∧ length (recs (visitor "1.1.1.1" 2 (visitor "1.1.1.1" 1 (New [])).2).2) = 1%nat.
Proof.
  assert (bound (visitor "1.1.1.1" 1 (New [])).2 "1.1.1.1" 0) as Hb.
  { exists 0%nat. split; [by vm_compute|]. split; [vm_compute; lia|by vm_compute]. }
  split; [exact Hb|].
  destruct (visitor_known_identity _ "1.1.1.1" 0 2 Hb) as (H1 & _ & _ & H4 & _).
  split; [exact H1|exact H4].
Defined.

(** ** The sweep and the lookups *)

(** X9: for every identity but the empty one, and for the empty one too while
    the registry has fewer than two entries, in every world a program
    reaches: the sweep removes the entry exactly when it is idle, leaves an
    entry that is not idle as it was, and changes no record and no bucket. *)
Theorem cleanup_removes_idle (now : string → Z) (w : world) (k : string) :
  reachable w →
  k ≠ ""%string ∨ (size (storage (self w)) < 2)%nat →
  (storage (self (cleanup now w)) !! k = None ↔
     storage (self w) !! k = None ∨ idle now w k)
  ∧ (¬ idle now w k → storage (self (cleanup now w)) !! k = storage (self w) !! k)
  ∧ recs (cleanup now w) = recs w
  ∧ lims (cleanup now w) = lims w.
Proof.
  intros Hw%reachable_wf Hk.
  destruct (cleanup_spec now w k Hw) as [Hiff Hsame].
  assert (storage (self (cleanup now w)) !! k = None ↔
          storage (self w) !! k = None ∨ idle now w k) as Hiff'.
  { rewrite Hiff. split; [|tauto].
    intros [?|[?|[-> Hsz]]]; [tauto..|]. destruct Hk as [?|?]; [done|lia]. }
  split; [exact Hiff'|]. split; [|done].
  intros Hni. destruct Hsame as [Hnone|?]; [|done].
  rewrite Hnone. apply Hiff' in Hnone as [->|?]; done.
Qed.

Lemma cleanup_removes_idle_witness :
  let w := (visitor "2.2.2.2" (6 * time.Minute) (visitor "1.1.1.1" 0 (New [])).2).2 in
  let now := fun _ : string => 7 * time.Minute in
  reachable w
  ∧ storage (self (cleanup now w)) !! "1.1.1.1"%string = None
  ∧ storage (self (cleanup now w)) !! "2.2.2.2"%string = storage (self w) !! "2.2.2.2"%string.
Proof.
  intros w now.
  assert (reachable w) as Hw by (do 2 apply reach_visitor; apply reach_New).
  split; [exact Hw|].
  destruct (cleanup_removes_idle now w "1.1.1.1" Hw) as (H1 & _); [by left|].
  destruct (cleanup_removes_idle now w "2.2.2.2" Hw) as (_ & H2 & _); [by left|].
  split.
  - apply H1. right. exists 0%nat. split; [by vm_compute|]. by vm_compute.
  - apply H2. intros (a & Ha & Hle).
    assert (a = 1%nat) as -> by (vm_compute in Ha; congruence).
    vm_compute in Hle. by apply Hle.
Defined.

Lemma cleanup_submap (now : string → Z) (w : world) :
  storage (self (cleanup now w)) ⊆ storage (self w).
Proof.
  apply map_subseteq_spec. intros k v. rewrite cleanup_lookup.
  by destruct (decide (k ∈ cleanup_scan (cleanup_make w) now w)).
Qed.

(** X10: a second sweep at the same clock readings removes nothing more: the
    sweep is idempotent, in every world. *)
Theorem cleanup_idempotent (now : string → Z) (w : world) :
  cleanup now (cleanup now w) = cleanup now w.
Proof.
  assert (storage (self (cleanup now (cleanup now w))) = storage (self (cleanup now w)))
    as Heq.
  { apply map_eq. intros k. rewrite (cleanup_lookup now (cleanup now w)).
    destruct (decide (k ∈ cleanup_scan (cleanup_make (cleanup now w)) now (cleanup now w)))
      as [Hin|]; [|done].
    symmetry. rewrite cleanup_lookup.
    destruct (decide (k ∈ cleanup_scan (cleanup_make w) now w)) as [|Hnin]; [done|].
    exfalso. apply Hnin.
    apply elem_of_cleanup_scan in Hin as [Hm|(v & Hk & Hv)]; apply elem_of_cleanup_scan.
    - left. apply elem_of_cleanup_make in Hm as [-> Hsz]. apply elem_of_cleanup_make.
      split; [done|]. pose proof (map_subseteq_size _ _ (cleanup_submap now w)). lia.
    - right. exists v. split; [|done].
      by apply (lookup_weaken _ _ _ _ Hk), cleanup_submap. }
  unfold cleanup at 1. unfold cleanup_delete.
  change (foldl _ _ _) with (storage (self (cleanup now (cleanup now w)))).
  rewrite Heq. reflexivity.
Qed.

Lemma visitor_self_opts (ip : string) (now : Z) (w : world) :
  opts (self (visitor ip now w).2) = opts (self w)
  ∧ limit (self (visitor ip now w).2) = limit (self w).
Proof.
  destruct (storage (self w) !! ip) as [v|] eqn:Hip.
  - rewrite (visitor_hit _ _ _ _ Hip). simpl. by rewrite visitor_touch_self.
  - by rewrite (visitor_miss _ _ _ Hip).
Qed.

(** X11: an identity seen less than the TTL before the sweep reads the clock
    for it keeps its entry and its bucket through the sweep (the empty
    identity only while the registry has fewer than two entries). *)
Theorem seen_recently_survives (w : world) (ip : string) (t : Z) (now : string → Z) :
  reachable w →
  ip ≠ ""%string ∨ (size (storage (self (visitor ip t w).2)) < 2)%nat →
  time.Since (now ip) t < ttl (opts (self w)) →
  ∃ l, (visitor ip t w).1 = Ok (Some l)
       ∧ bound (cleanup now (visitor ip t w).2) ip l.
Proof.
  intros Hw%reachable_wf Hip Hage.
  destruct (visitor_lastSeen ip t w Hw) as (a & l & Hs & Ha & Hseen & Hl & Hres).
  destruct (visitor_self_opts ip t w) as [Hopts _].
  exists l. split; [exact Hres|]. exists a.
  split; [|by split].
  rewrite cleanup_lookup.
  destruct (decide (ip ∈ cleanup_scan (cleanup_make (visitor ip t w).2) now
                                    (visitor ip t w).2)) as [Hin|]; [|done].
  exfalso. apply elem_of_cleanup_scan in Hin as [Hm|(v & Hk & Hv)].
  - apply elem_of_cleanup_make in Hm as [-> Hsz]. destruct Hip as [?|?]; [done|lia].
  - rewrite Hs in Hk. injection Hk as <-. rewrite Hseen, Hopts in Hv. lia.
Qed.

Lemma seen_recently_survives_witness :
  reachable (New [])
  ∧ time.Since (4 * time.Minute) 0 < ttl (opts (self (New [])))
  ∧ ∃ l, bound (cleanup (fun _ => 4 * time.Minute) (visitor "1.1.1.1" 0 (New [])).2)
               "1.1.1.1" l.
Proof.
  assert (time.Since (4 * time.Minute) 0 < ttl (opts (self (New [])))) as Hage
    by (by vm_compute).
  split; [apply reach_New|]. split; [exact Hage|].
  assert ("1.1.1.1"%string ≠ ""%string) as Hne by discriminate.
  destruct (seen_recently_survives (New []) "1.1.1.1" 0 (fun _ => 4 * time.Minute))
    as (l & _ & Hb); [apply reach_New|by left|exact Hage|].
  by exists l.
Defined.

(** X12: an identity whose entry the sweep found idle starts afresh at its next
    lookup: the lookup allocates a new bucket, made by
    [rate.NewLimiter(lim.limit, lim.opts.burst)], at an address no bucket
    had, records the clock reading of the lookup, and leaves the bucket the
    identity had before as it was. *)
Theorem evicted_identity_starts_afresh (w : world) (ip : string) (now : string → Z) (t : Z) :
  reachable w → idle now w ip →
  storage (self (cleanup now w)) !! ip = None
  ∧ (visitor ip t (cleanup now w)).1 = Ok (Some (length (lims w)))
  ∧ lims (visitor ip t (cleanup now w)).2 !!! length (lims w)
    = rate.NewLimiter (limit (self w)) (burst (opts (self w)))
  ∧ (∃ a, storage (self (visitor ip t (cleanup now w)).2) !! ip = Some (Some a)
          ∧ lastSeen (recs (visitor ip t (cleanup now w)).2 !!! a) = t)
  ∧ ∀ l, bound w ip l →
         l ≠ length (lims w)
         ∧ lims (visitor ip t (cleanup now w)).2 !!! l = lims w !!! l.
Proof.
  intros Hw%reachable_wf Hidle.
  assert (storage (self (cleanup now w)) !! ip = None) as Hnone.
  { apply (cleanup_spec now w ip Hw). by right; left. }
  split; [exact Hnone|]. rewrite (visitor_miss _ _ _ Hnone). simpl.
  split; [done|]. split; [by rewrite list_lookup_total_middle|]. split.
  - exists (length (recs w)). rewrite lookup_insert_eq.
    by rewrite list_lookup_total_middle.
  - intros l (a & Ha & Hlt & Hl).
    destruct (wf_recs _ Hw a _ (list_lookup_lookup_total_lt _ _ Hlt)) as (l' & El & Hl').
    assert (l' = l) as -> by congruence.
    split; [lia|]. by rewrite lookup_total_app_l.
Qed.

Lemma evicted_identity_starts_afresh_witness :
  let w := (visitor "1.1.1.1" 0 (New [])).2 in
  let now := fun _ : string => 5 * time.Minute in
  reachable w ∧ idle now w "1.1.1.1"
  ∧ (visitor "1.1.1.1" (6 * time.Minute) (cleanup now w)).1 = Ok (Some 1%nat).
Proof.
  intros w now.
  assert (reachable w) as Hw by (apply reach_visitor, reach_New).
  assert (idle now w "1.1.1.1") as Hidle.
  { exists 0%nat. split; [by vm_compute|]. by vm_compute. }
  split; [exact Hw|]. split; [exact Hidle|].
  exact (proj1 (proj2 (evicted_identity_starts_afresh w "1.1.1.1" now (6 * time.Minute)
                         Hw Hidle))).
Defined.

(** ** The middlewares on a reachable world *)

Lemma visitorAllow_returns (ip : string) (now_v now_a : Z) (w : world) :
  wf w → ∃ ok, (visitorAllow ip now_v now_a w).1 = Ok ok.
Proof.
  intros Hw. destruct (visitor_binds ip now_v w Hw) as (l & Hl & _).
  unfold visitorAllow. destruct (visitor ip now_v w) as [res w1]. simpl in Hl. subst res.
  unfold Allow. destruct (rate.Allow now_a (lims w1 !!! l)) as [ok b]. by exists ok.
Qed.

(** X13: in every world a program reaches neither middleware panics.  [Limit]
    answers an identity that is not allow-listed with what the next handler
    writes when the lookup's bucket admits, and with one 429 whose body is
    "Too many requests" and a line feed, and no call of the next handler,
    when it rejects; the world
    it leaves is the one of the lookup and admission, with an entry for the
    identity.  [GinLimit] leaves that same world for its identity. *)
Theorem middlewares_outcome (TrimSpace : string → string)
    (SplitHostPort : string → option (string * string))
    (next : ResponseWriter → ResponseWriter) (r : Request) (rw : ResponseWriter)
    (nhandlers : Z) (c : Context) (now_v now_a : Z) (w : world) :
  reachable w →
  ((Limit TrimSpace SplitHostPort next r now_v now_a w rw).1 = Ok (next rw)
   ∨ (Limit TrimSpace SplitHostPort next r now_v now_a w rw).1
     = Ok (rw ++ [(429, String.append "Too many requests" (String "010" ""))]))
  ∧ (whiteListed (self w) (LimitIP TrimSpace SplitHostPort r (self w)) = false →
     ∃ ok, visitorAllow (LimitIP TrimSpace SplitHostPort r (self w)) now_v now_a w
           = (Ok ok, (Limit TrimSpace SplitHostPort next r now_v now_a w rw).2)
           ∧ (Limit TrimSpace SplitHostPort next r now_v now_a w rw).1
             = Ok (if ok then next rw
                   else rw ++ [(429, String.append "Too many requests" (String "010" ""))])
           ∧ LimitIP TrimSpace SplitHostPort r (self w)
             ∈ dom (storage (self (Limit TrimSpace SplitHostPort next r now_v now_a w rw).2)))
  ∧ (∃ c', (GinLimit TrimSpace nhandlers next now_v now_a w c).1 = Ok c')
  ∧ (GinLimit TrimSpace nhandlers next now_v now_a w c).2
    = (visitorAllow (GinLimitIP TrimSpace c (self w)) now_v now_a w).2.
Proof.
  intros Hw%reachable_wf.
  set (ip := LimitIP TrimSpace SplitHostPort r (self w)).
  set (ipg := GinLimitIP TrimSpace c (self w)).
  destruct (visitorAllow_returns ip now_v now_a w Hw) as (ok & Hok).
  destruct (visitorAllow_returns ipg now_v now_a w Hw) as (okg & Hokg).
  pose proof (visitorAllow_dom ip now_v now_a w) as Hdom.
  unfold Limit, GinLimit. fold ip ipg.
  destruct (visitorAllow ip now_v now_a w) as [res w1]. simpl in Hok, Hdom. subst res.
  destruct (visitorAllow ipg now_v now_a w) as [resg wg]. simpl in Hokg. subst resg.
  split; [|split; [|split]].
  - destruct (whiteListed (self w) ip); [by left|]. destruct ok; [by left|by right].
  - intros ->. exists ok. destruct ok; simpl; (split; [done|]); (split; [done|]);
      rewrite Hdom; set_solver.
  - destruct okg; eauto.
  - by destruct okg.
Qed.

Lemma middlewares_outcome_witness :
  let w := New [RpsWithBurst 1 1] in
  let ok := fun rw : ResponseWriter => rw ++ [(200, "OK"%string)] in
  let r := {| Header := fun _ => "1.1.1.1"%string; RemoteAddr := "192.0.2.1:1234" |} in
  let c := {| GetHeader := fun _ => ""%string; ClientIP := "1.1.1.1"; Writer := []; index := 0 |} in
  reachable w
  ∧ ((Limit (fun s => s) (fun _ => None) ok r 1 2 w []).1 = Ok (ok [])
     ∨ (Limit (fun s => s) (fun _ => None) ok r 1 2 w []).1
       = Ok ([] ++ [(429, String.append "Too many requests" (String "010" ""))])).
Proof.
  intros w ok r c. split; [apply reach_New|].
  exact (proj1 (middlewares_outcome (fun s => s) (fun _ => None) ok r [] 2 c 1 2 w
                  (reach_New _))).
Defined.

(** ** The identity read from the header *)

Lemma firstField_app (a b : string) :
  ¬ In ","%char (list_ascii_of_string a) →
  firstField (a +:+ String "," b) = a.
Proof.
  induction a as [|c a IH]; simpl; [done|].
  intros Hc. destruct (Ascii.eqb_spec c ",") as [->|_]; [by destruct Hc; left|].
  rewrite IH; [done|]. intros H. apply Hc. by right.
Qed.

Lemma firstField_whole (a : string) :
  ¬ In ","%char (list_ascii_of_string a) → firstField a = a.
Proof.
  induction a as [|c a IH]; simpl; [done|].
  intros Hc. destruct (Ascii.eqb_spec c ",") as [->|_]; [by destruct Hc; left|].
  rewrite IH; [done|]. intros H. apply Hc. by right.
Qed.

(** X14: of a comma-separated header value only the text before the first comma
    is used, trimmed; a value without a comma is used whole, trimmed; an
    absent (empty) header gives the empty identity, which sends [Limit] to
    the remote address and [GinLimit] to the client IP. *)
Theorem header_first_entry (TrimSpace : string → string)
    (SplitHostPort : string → option (string * string))
    (header : string → string) (l : limiter) (a : string) :
  ¬ In ","%char (list_ascii_of_string a) →
  (∀ b, header (ipHeader l) = a +:+ String "," b → headerIP TrimSpace header l = TrimSpace a)
  ∧ (a ≠ ""%string → header (ipHeader l) = a → headerIP TrimSpace header l = TrimSpace a)
  ∧ (header (ipHeader l) = ""%string →
     headerIP TrimSpace header l = ""%string
     ∧ (∀ remote, LimitIP TrimSpace SplitHostPort (mkRequest header remote) l
                  = match SplitHostPort remote with
                    | Some (host, _) => host
                    | None => remote
                    end)
     ∧ (∀ client rw i, GinLimitIP TrimSpace (mkContext header client rw i) l = client)).
Proof.
  intros Ha. unfold LimitIP, GinLimitIP, headerIP. simpl. split; [|split].
  - intros b ->. rewrite firstField_app by done. by destruct a.
  - intros Hne ->. rewrite firstField_whole by done. by destruct a.
  - intros ->. simpl. by repeat split.
Qed.

Lemma header_first_entry_witness :
  ¬ In ","%char (list_ascii_of_string "5.5.5.5")
  ∧ headerIP (fun s => s) (fun _ => "5.5.5.5, 6.6.6.6, 7.7.7.7"%string) (self (New []))
    = "5.5.5.5"%string.
Proof.
  assert (¬ In ","%char (list_ascii_of_string "5.5.5.5")) as Ha.
  { simpl. intros H. repeat (destruct H as [H|H]; [discriminate H|]). exact H. }
  split; [exact Ha|].
  exact (proj1 (header_first_entry (fun s => s) (fun _ => None)
                  (fun _ => "5.5.5.5, 6.6.6.6, 7.7.7.7"%string) (self (New [])) "5.5.5.5" Ha)
               " 6.6.6.6, 7.7.7.7"%string eq_refl).
Defined.

Lemma race_no_panic_witness :
  reachable (New [])
  ∧ Forall Race.fresh [Race.Enter "1.1.1.1"; Race.Enter "1.1.1.1"; Race.Sweep]
  ∧ ∀ i r,
      (Race.run [(0%nat, 1); (2%nat, 2); (1%nat, 3); (0%nat, 4); (2%nat, 5); (1%nat, 6);
                 (0%nat, 7); (2%nat, 8); (1%nat, 9)]
         ([Race.Enter "1.1.1.1"; Race.Enter "1.1.1.1"; Race.Sweep], New [])).1 !! i
      = Some (Race.Returned r) →
      ∃ l, r = Ok (Some l).
Proof.
  assert (Forall Race.fresh [Race.Enter "1.1.1.1"; Race.Enter "1.1.1.1"; Race.Sweep])
    as Hgs by (repeat constructor).
  split; [apply reach_New|]. split; [exact Hgs|].
  exact (proj2 (race_no_panic _ (New []) _ (reach_New []) Hgs)).
Defined.

(** ** Racing lookups of a known identity *)

Lemma looking_up_step (ip : string) (a l : nat) (now : Z) (g : Race.goroutine) (w : world) :
  storage (self w) !! ip = Some (Some a) → (a < length (recs w))%nat →
  rlimiter (recs w !!! a) = Some l → looking_up ip a l g →
  storage (self (Race.step now g w).2) !! ip = Some (Some a)
  ∧ (a < length (recs (Race.step now g w).2))%nat
  ∧ rlimiter (recs (Race.step now g w).2 !!! a) = Some l
  ∧ looking_up ip a l (Race.step now g w).1.
Proof.
  intros Hip Ha Hl [-> | [-> | [-> | ->]]]; simpl.
  - unfold visitor_find. rewrite Hip. simpl. repeat split; try done. by right; left.
  - rewrite length_alter, list_lookup_total_alter_eq by done. simpl.
    repeat split; try done. by right; right; left.
  - rewrite Hl. repeat split; try done. by right; right; right.
  - repeat split; try done. by right; right; right.
Qed.

Lemma looking_up_run (ip : string) (a l : nat) (schedule : list (nat * Z))
    (gs : list Race.goroutine) (w : world) :
  storage (self w) !! ip = Some (Some a) → (a < length (recs w))%nat →
  rlimiter (recs w !!! a) = Some l → Forall (looking_up ip a l) gs →
  storage (self (Race.run schedule (gs, w)).2) !! ip = Some (Some a)
  ∧ Forall (looking_up ip a l) (Race.run schedule (gs, w)).1.
Proof.
  revert gs w. induction schedule as [|pick schedule IH]; intros gs w Hip Ha Hl Hgs; [done|].
  change (Race.run (pick :: schedule) (gs, w))
    with (Race.run schedule (Race.sched (gs, w) pick)).
  destruct (Race.sched (gs, w) pick) as [gs' w'] eqn:Hs.
  unfold Race.sched in Hs. simpl in Hs.
  destruct (gs !! pick.1) as [g|] eqn:Hg; [|injection Hs as <- <-; by apply IH].
  pose proof (Forall_lookup_1 _ _ _ _ Hgs Hg) as Hlook.
  destruct (looking_up_step ip a l pick.2 g w Hip Ha Hl Hlook) as (Hip' & Ha' & Hl' & Hg').
  destruct (Race.step pick.2 g w) as [g1 w1]. injection Hs as <- <-. simpl in *.
  apply IH; try done. by apply Forall_insert.
Qed.

(** X16: the race of first lookups does not extend to an identity the registry
    holds: when any number of goroutines look up an identity bound to the
    bucket [l], under every schedule every lookup that returns, returns
    [l], and the identity keeps its entry. *)
Theorem racing_known_lookups_agree (w : world) (ip : string) (l : nat)
    (n : nat) (schedule : list (nat * Z)) (i : nat) (r : result (option nat)) :
  bound w ip l →
  (Race.run schedule (replicate n (Race.Enter ip), w)).1 !! i = Some (Race.Returned r) →
  r = Ok (Some l)
  ∧ storage (self (Race.run schedule (replicate n (Race.Enter ip), w)).2) !! ip
    = storage (self w) !! ip.
Proof.
  intros (a & Hip & Ha & Hl) Hi.
  destruct (looking_up_run ip a l schedule (replicate n (Race.Enter ip)) w Hip Ha Hl)
    as [Hip' Hgs].
  { apply Forall_replicate. by left. }
  split; [|by rewrite Hip', Hip].
  pose proof (Forall_lookup_1 _ _ _ _ Hgs Hi) as [?|[?|[?|?]]]; congruence.
Qed.

Lemma racing_known_lookups_agree_witness :
  let w := (visitor "1.1.1.1" 0 (New [])).2 in
  let schedule := [(0%nat, 1); (1%nat, 2); (1%nat, 3); (0%nat, 4); (0%nat, 5); (1%nat, 6)] in
  bound w "1.1.1.1" 0
  ∧ (Race.run schedule (replicate 2 (Race.Enter "1.1.1.1"), w)).1 !! 1%nat
    = Some (Race.Returned (Ok (Some 0%nat))).
Proof.
  intros w schedule.
  assert (bound w "1.1.1.1" 0) as Hb.
  { exists 0%nat. split; [by vm_compute|]. split; [vm_compute; lia|by vm_compute]. }
  assert (∃ r, (Race.run schedule (replicate 2 (Race.Enter "1.1.1.1"), w)).1 !! 1%nat
               = Some (Race.Returned r)) as [r Hr] by (eexists; by vm_compute).
  split; [exact Hb|].
  destruct (racing_known_lookups_agree w "1.1.1.1" 0 2 schedule 1 r Hb Hr) as [-> _].
  exact Hr.
Defined.

(** ** A TTL of zero *)

(** X17: [RecordTTL] keeps a TTL of zero, and with it every entry is idle as
    soon as the clock has not gone back: the sweep empties the registry. *)
Theorem zero_ttl_sweeps_all (os : list option_) (w : world) (now : string → Z) :
  reachable w → ttl (opts (self w)) = 0 →
  (∀ k a, storage (self w) !! k = Some (Some a) → lastSeen (recs w !!! a) ≤ now k) →
  storage (self (cleanup now w)) = ∅
  ∧ ttl (opts (self (New (os ++ [RecordTTL 0])))) = 0.
Proof.
  intros Hw%reachable_wf Httl Hclock. split; [|by rewrite New_snoc].
  apply map_eq. intros k.
  rewrite lookup_empty. apply (cleanup_spec now w k Hw).
  destruct (storage (self w) !! k) as [v|] eqn:Hk; [|by left].
  right; left. destruct (wf_storage _ Hw k v Hk) as (a & -> & _).
  exists a. split; [done|]. rewrite Httl. unfold time.Since.
  specialize (Hclock k a Hk). lia.
Qed.

Lemma zero_ttl_sweeps_all_witness :
  let w := (visitor "1.1.1.1" 3 (New [RecordTTL 0])).2 in
  reachable w ∧ ttl (opts (self w)) = 0
  ∧ storage (self (cleanup (fun _ => 3) w)) = ∅.
Proof.
  intros w.
  assert (reachable w) as Hw by (apply reach_visitor, reach_New).
  split; [exact Hw|]. split; [reflexivity|].
  apply (zero_ttl_sweeps_all [] w (fun _ => 3) Hw eq_refl).
  intros k a Hk.
  assert (a = 0%nat) as ->.
  { destruct (decide (k = "1.1.1.1"%string)) as [->|Hne].
    - vm_compute in Hk. congruence.
    - unfold w in Hk. rewrite visitor_other in Hk by done. simpl in Hk.
      by rewrite lookup_empty in Hk. }
  by vm_compute.
Defined.

(** ** Racing first lookups of the empty identity *)

(** C8 at a failing schedule: two goroutines present the empty identity to
    a limiter of capacity 1 that has no entry for it, and run no sweep; both
    run the read-locked lookup before either stores.  The two callers get
    two different buckets, the registry keeps one entry for "" (bound to
    the second caller's bucket), and each caller's admission succeeds on its
    own bucket: they do not compete for one allowance. *)
Theorem racing_empty_identity_two_buckets :
  let w := New [RpsWithBurst 1 1] in
  let gs := [Race.Enter ""; Race.Enter ""] in
  let raced :=
    Race.run [(0%nat, 1); (1%nat, 2); (0%nat, 3); (1%nat, 4); (0%nat, 5); (1%nat, 6)] (gs, w) in
  storage (self w) = ∅
  ∧ raced.1 = [Race.Returned (Ok (Some 0%nat)); Race.Returned (Ok (Some 1%nat))]
  ∧ size (storage (self raced.2)) = 1%nat
  ∧ bound raced.2 "" 1
  ∧ (Allow (Some 0%nat) 7 raced.2).1 = Ok true
  ∧ (Allow (Some 1%nat) 8 (Allow (Some 0%nat) 7 raced.2).2).1 = Ok true.
Proof.
  intros w gs raced.
  split; [reflexivity|]. split; [by vm_compute|]. split; [by vm_compute|].
  split; [|split; by vm_compute].
  exists 1%nat. split; [by vm_compute|]. split; [vm_compute; lia|by vm_compute].
Qed.
